(** * The CRM schema: filter sets, models and mutations
      (crm/filters.py, crm/models.py, crm/schema.py)

    The three [FilterSet] classes of [crm/filters.py] are declarative: each
    names its filters, binds most of them to a column and a lookup, and
    binds three of them to a method written in the file.  The embedding
    below keeps that shape.  A query set is the list of rows it evaluates
    to, a request is the dictionary of cleaned values keyed by filter name,
    and the library calls the file relies on ([QuerySet.filter],
    [QuerySet.distinct], [Filter.filter], [FilterSet.filter_queryset]) are
    given their documented meaning.

    The methods of the models and the mutations of [crm/schema.py] run over
    a database of three tables; what the repository leaves to the database
    engine is a parameter of the development. *)

From Stdlib Require Import QArith Ascii.
From stdpp Require Import gmap strings list pretty.

Close Scope Q_scope.
Local Open Scope string_scope.
Local Open Scope Z_scope.

(** ** Python values *)

(** The values a form field hands to a filter: [None], [str], [int],
    [Decimal], [bool] and [datetime] (an instant, counted in microseconds). *)
Inductive value : Type :=
  | VNone
  | VStr (s : string)
  | VInt (n : Z)
  | VDecimal (d : Q)
  | VBool (b : bool)
  | VDateTime (t : Z).

(** Truth value of [if value:]. *)
Definition truthy (v : value) : bool :=
  match v with
  | VNone => false
  | VStr s => negb (bool_decide (s = ""))
  | VInt n => negb (n =? 0)
  | VDecimal d => negb (Qeq_bool d 0)
  | VBool b => b
  | VDateTime _ => true
  end.

(** [value in EMPTY_VALUES], with [EMPTY_VALUES = ([], (), {}, "", None)].
    Membership is by [==], so neither [0], [Decimal(0)] nor [False] is a
    member. *)
Definition EMPTY_VALUES (v : value) : bool :=
  match v with
  | VNone => true
  | VStr s => bool_decide (s = "")
  | _ => false
  end.

(** ** Strings *)

Definition lower_ascii (c : Ascii.ascii) : Ascii.ascii :=
  let n := Ascii.nat_of_ascii c in
  if ((65 <=? n) && (n <=? 90))%nat then Ascii.ascii_of_nat (n + 32) else c.

Fixpoint lower (s : string) : string :=
  match s with
  | EmptyString => EmptyString
  | String c s' => String (lower_ascii c) (lower s')
  end.

(** [p in s] *)
Fixpoint contains (s p : string) : bool :=
  String.prefix p s ||
  match s with
  | EmptyString => false
  | String _ s' => contains s' p
  end.

(** The [icontains] lookup: substring match after case folding (of the
    ASCII letters). *)
Definition icontains_str (s p : string) : bool := contains (lower s) (lower p).

(** The [startswith] lookup: prefix match, the case of the letters kept. *)
Definition startswith_str (s p : string) : bool := String.prefix p s.

(** ** Columns and lookups *)

Inductive column : Type := CharField | IntegerField | DecimalField | DateTimeField.

Inductive lookup : Type := exact | icontains | startswith | gte | lte | lt.

(** [int(d)] for a [Decimal]: truncation towards zero. *)
Definition int_of_decimal (d : Q) : Z := Z.quot (Qnum d) (Z.pos (Qden d)).

(** [Field.get_prep_value]: the right-hand side of a lookup is brought to
    the column's Python type.  [None] marks a value of a type the column is
    not modelled for; no filter class produces one for its own column. *)
Definition get_prep_value (c : column) (v : value) : option value :=
  match c, v with
  | CharField, VStr s => Some (VStr s)
  | IntegerField, VInt n => Some (VInt n)
  | IntegerField, VDecimal d => Some (VInt (int_of_decimal d))
  | DecimalField, VDecimal d => Some (VDecimal d)
  | DecimalField, VInt n => Some (VDecimal (inject_Z n))
  | DateTimeField, VDateTime t => Some (VDateTime t)
  | _, _ => None
  end.

(** The lookups each column type is modelled for. *)
Definition supports (c : column) (op : lookup) : bool :=
  match c, op with
  | CharField, (icontains | startswith) => true
  | (IntegerField | DecimalField | DateTimeField), (exact | gte | lte | lt) => true
  | _, _ => false
  end.

Definition prepare (c : column) (op : lookup) (v : value) : option value :=
  if supports c op then get_prep_value c v else None.

Definition compare_values (a b : value) : option comparison :=
  match a, b with
  | VInt x, VInt y => Some (x ?= y)
  | VDecimal x, VDecimal y => Some (x ?= y)%Q
  | VDateTime x, VDateTime y => Some (x ?= y)
  | _, _ => None
  end.

(** Whether a stored cell satisfies [cell <op> rhs].  A NULL cell ([VNone])
    satisfies no lookup. *)
Definition holds (op : lookup) (cell rhs : value) : bool :=
  match op, cell, rhs with
  | icontains, VStr s, VStr p => icontains_str s p
  | startswith, VStr s, VStr p => startswith_str s p
  | exact, _, _ =>
      match compare_values cell rhs with Some Eq => true | _ => false end
  | gte, _, _ =>
      match compare_values cell rhs with Some (Eq | Gt) => true | _ => false end
  | lte, _, _ =>
      match compare_values cell rhs with Some (Eq | Lt) => true | _ => false end
  | lt, _, _ =>
      match compare_values cell rhs with Some Lt => true | _ => false end
  | _, _, _ => false
  end.

(** ** Models and query sets *)

(** A model resolves a field path ([customer__name], [products__id]) to
    the column it ends in and to the cells a row joins to along it: one
    cell for a column of the row or of a foreign key, one per related row
    for a many-to-many relation.  An unknown path is [None]. *)
Class Model (row : Type) := {
  resolve : string → option (column * (row → list value));
  row_eq_dec :: EqDecision row;
}.

Abbreviation QuerySet row := (list row) (only parsing).

Section queryset.
Context {row : Type} `{!Model row}.

(** The rows an inner join along the path yields for one row: the row
    once per joined cell that satisfies the lookup. *)
Definition joined (cells : row → list value) (op : lookup) (rhs : value)
    (r : row) : list row :=
  (λ _, r) <$> filter (λ c, holds op c rhs) (cells r).

(** [queryset.filter(path__op=rhs)] *)
Definition QuerySet_filter (path : string) (op : lookup) (rhs : value)
    (queryset : QuerySet row) : option (QuerySet row) :=
  '(c, cells) ← resolve path;
  rhs' ← prepare c op rhs;
  Some (queryset ≫= joined cells op rhs').

(** [queryset.distinct()]: equal rows are kept once. *)
Definition distinct (queryset : QuerySet row) : QuerySet row :=
  remove_dups queryset.

End queryset.

(** First binding of a field path in a model's table of fields. *)
Fixpoint assoc {A : Type} (key : string) (table : list (string * A)) : option A :=
  match table with
  | [] => None
  | (k, a) :: rest => if String.eqb k key then Some a else assoc key rest
  end.

(** ** crm/models.py *)

#[global] Instance Q_eq_dec : EqDecision Q.
Proof. solve_decision. Defined.

Module Customer.

Record t : Type := mk {
  id : Z;
  name : string;
  email : string;
  phone : option string;      (* null=True *)
  created_at : Z;
  updated_at : Z;
}.

#[global] Instance customer_eq_dec : EqDecision t.
Proof. solve_decision. Defined.

Definition fields : list (string * (column * (t → list value))) :=
  [ ("id", (IntegerField, λ r, [VInt (id r)]));
    ("name", (CharField, λ r, [VStr (name r)]));
    ("email", (CharField, λ r, [VStr (email r)]));
    ("phone", (CharField, λ r, [from_option VStr VNone (phone r)]));
    ("created_at", (DateTimeField, λ r, [VDateTime (created_at r)]));
    ("updated_at", (DateTimeField, λ r, [VDateTime (updated_at r)])) ].

#[global] Instance customer_model : Model t := {| resolve path := assoc path fields |}.

End Customer.

Module Product.

Record t : Type := mk {
  id : Z;
  name : string;
  price : Q;
  stock : Z;
  created_at : Z;
  updated_at : Z;
}.

#[global] Instance product_eq_dec : EqDecision t.
Proof. solve_decision. Defined.

Definition fields : list (string * (column * (t → list value))) :=
  [ ("id", (IntegerField, λ r, [VInt (id r)]));
    ("name", (CharField, λ r, [VStr (name r)]));
    ("price", (DecimalField, λ r, [VDecimal (price r)]));
    ("stock", (IntegerField, λ r, [VInt (stock r)]));
    ("created_at", (DateTimeField, λ r, [VDateTime (created_at r)]));
    ("updated_at", (DateTimeField, λ r, [VDateTime (updated_at r)])) ].

#[global] Instance product_model : Model t := {| resolve path := assoc path fields |}.

End Product.

Module Order.

(** [customer] is the row the foreign key points to and [products] the rows
    the many-to-many table relates the order to. *)
Record t : Type := mk {
  id : Z;
  customer : Customer.t;
  products : list Product.t;
  total_amount : Q;
  order_date : Z;
  created_at : Z;
  updated_at : Z;
}.

#[global] Instance order_eq_dec : EqDecision t.
Proof. solve_decision. Defined.

Definition fields : list (string * (column * (t → list value))) :=
  [ ("id", (IntegerField, λ r, [VInt (id r)]));
    ("total_amount", (DecimalField, λ r, [VDecimal (total_amount r)]));
    ("order_date", (DateTimeField, λ r, [VDateTime (order_date r)]));
    ("created_at", (DateTimeField, λ r, [VDateTime (created_at r)]));
    ("updated_at", (DateTimeField, λ r, [VDateTime (updated_at r)]));
    ("customer__name", (CharField, λ r, [VStr (Customer.name (customer r))]));
    ("products__name", (CharField, λ r, (λ p, VStr (Product.name p)) <$> products r));
    ("products__id", (IntegerField, λ r, (λ p, VInt (Product.id p)) <$> products r)) ].

#[global] Instance order_model : Model t := {| resolve path := assoc path fields |}.

End Order.

(** ** The filter machinery crm/filters.py declares its filters with *)

Inductive filter_class : Type := CharFilter | NumberFilter | DateTimeFilter | BooleanFilter.

(** A filter is bound to a column and a lookup ([field_name], [lookup_expr])
    or to a method of the filter set ([method]). *)
Inductive binding (row : Type) : Type :=
  | Lookup (field_name : string) (lookup_expr : lookup)
  | Method (method : QuerySet row → string → value → option (QuerySet row)).
Arguments Lookup {row} field_name lookup_expr.
Arguments Method {row} method.

Record FilterSet : Type := {
  row : Type;
  row_model :: Model row;
  filters : list (string * (filter_class * binding row));
}.

(** What a form field cleans a missing entry to. *)
Definition empty_value (cls : filter_class) : value :=
  match cls with
  | CharFilter => VStr ""
  | _ => VNone
  end.

(** [c.isspace()], on characters below 256: tab to carriage return, the
    four separators, the space, next line and the no-break space. *)
Definition isspace (c : Ascii.ascii) : bool :=
  let n := Ascii.nat_of_ascii c in
  ((9 <=? n) && (n <=? 13) || (28 <=? n) && (n <=? 32) ||
   (n =? 133) || (n =? 160))%nat.

(** [s.lstrip()] *)
Fixpoint lstrip (s : string) : string :=
  match s with
  | EmptyString => EmptyString
  | String c s' => if isspace c then lstrip s' else s
  end.

(** [s.rstrip()] *)
Fixpoint rstrip (s : string) : string :=
  match s with
  | EmptyString => EmptyString
  | String c s' =>
      match rstrip s' with
      | EmptyString => if isspace c then EmptyString else String c EmptyString
      | r => String c r
      end
  end.

(** [s.strip()] *)
Definition strip (s : string) : string := rstrip (lstrip s).

(** What the form field of a filter makes of a value: the field of a
    [CharFilter] is a [forms.CharField], which strips a string of the
    whitespace around it ([strip=True]); the other fields keep a value of
    their type as it is.  The validators of the fields are not part of
    this: a string with a null character, which [forms.CharField] refuses,
    is left to the properties to exclude. *)
Definition clean (cls : filter_class) (v : value) : value :=
  match cls with
  | CharFilter => match v with VStr s => VStr (strip s) | _ => v end
  | _ => v
  end.

(** [form.cleaned_data[name]] *)
Definition cleaned_data (data : gmap string value) (name : string)
    (cls : filter_class) : value :=
  clean cls (default (empty_value cls) (data !! name)).

Section filterset.
Context {row : Type} `{!Model row}.

(** [Filter.filter(qs, value)], and [FilterMethod.__call__(qs, value)] for a
    filter bound to a method: an empty value leaves the query set alone. *)
Definition filter_ (name : string) (b : binding row) (qs : QuerySet row)
    (v : value) : option (QuerySet row) :=
  if EMPTY_VALUES v then Some qs
  else match b with
       | Lookup field_name lookup_expr => QuerySet_filter field_name lookup_expr v qs
       | Method method => method qs name v
       end.

(** [FilterSet.filter_queryset(queryset)]: the declared filters, one after
    the other, each on the result of the one before. *)
Fixpoint filter_queryset (fs : list (string * (filter_class * binding row)))
    (data : gmap string value) (queryset : QuerySet row) : option (QuerySet row) :=
  match fs with
  | [] => Some queryset
  | (name, (cls, b)) :: rest =>
      queryset' ← filter_ name b queryset (cleaned_data data name cls);
      filter_queryset rest data queryset'
  end.

End filterset.

(** [FilterSet(data, queryset).qs] *)
Definition qs (F : FilterSet) (data : gmap string value)
    (queryset : QuerySet (row F)) : option (QuerySet (row F)) :=
  filter_queryset (filters F) data queryset.

(** ** crm/filters.py *)

(** Custom filter to match phone numbers starting with a specific pattern *)
Definition filter_phone_pattern (queryset : QuerySet Customer.t) (name : string)
    (value : value) : option (QuerySet Customer.t) :=
  if truthy value then QuerySet_filter "phone" startswith value queryset
  else Some queryset.

Definition CustomerFilter : FilterSet := {|
  row := Customer.t;
  filters :=
    [ ("name", (CharFilter, Lookup "name" icontains));
      ("email", (CharFilter, Lookup "email" icontains));
      ("created_at_gte", (DateTimeFilter, Lookup "created_at" gte));
      ("created_at_lte", (DateTimeFilter, Lookup "created_at" lte));
      ("phone_pattern", (CharFilter, Method filter_phone_pattern)) ];
|}.

(** Filter products with low stock (less than 10) *)
Definition filter_low_stock (queryset : QuerySet Product.t) (name : string)
    (value : value) : option (QuerySet Product.t) :=
  if truthy value then QuerySet_filter "stock" lt (VInt 10) queryset
  else Some queryset.

Definition ProductFilter : FilterSet := {|
  row := Product.t;
  filters :=
    [ ("name", (CharFilter, Lookup "name" icontains));
      ("price_gte", (NumberFilter, Lookup "price" gte));
      ("price_lte", (NumberFilter, Lookup "price" lte));
      ("stock_gte", (NumberFilter, Lookup "stock" gte));
      ("stock_lte", (NumberFilter, Lookup "stock" lte));
      ("stock", (NumberFilter, Lookup "stock" exact));
      ("low_stock", (BooleanFilter, Method filter_low_stock)) ];
|}.

(** Filter orders that include a specific product ID *)
Definition filter_by_product_id (queryset : QuerySet Order.t) (name : string)
    (value : value) : option (QuerySet Order.t) :=
  if truthy value then distinct <$> QuerySet_filter "products__id" exact value queryset
  else Some queryset.

Definition OrderFilter : FilterSet := {|
  row := Order.t;
  filters :=
    [ ("total_amount_gte", (NumberFilter, Lookup "total_amount" gte));
      ("total_amount_lte", (NumberFilter, Lookup "total_amount" lte));
      ("order_date_gte", (DateTimeFilter, Lookup "order_date" gte));
      ("order_date_lte", (DateTimeFilter, Lookup "order_date" lte));
      ("customer_name", (CharFilter, Lookup "customer__name" icontains));
      ("product_name", (CharFilter, Lookup "products__name" icontains));
      ("product_id", (NumberFilter, Method filter_by_product_id)) ];
|}.

(** The three entities of the schema and the filter set of each. *)
Inductive entity : Type := customer | product | order.

Definition filterset (e : entity) : FilterSet :=
  match e with
  | customer => CustomerFilter
  | product => ProductFilter
  | order => OrderFilter
  end.

(** The filter names a filter set declares. *)
Definition declared (F : FilterSet) (name : string) : Prop :=
  name ∈ (filters F).*1.

(** ** Vocabulary of the properties *)

(** Two outcomes of a filtering step agree as sets of rows. *)
Definition same_rows {A : Type} (r1 r2 : option (list A)) : Prop :=
  match r1, r2 with
  | Some l1, Some l2 => ∀ x, x ∈ l1 ↔ x ∈ l2
  | None, None => True
  | _, _ => False
  end.

Section narrowing_defs.
Context {row : Type} `{!Model row}.

(** A step narrows when it either rejects its value whatever the query set,
    or keeps, of any query set, the rows that satisfy one fixed condition. *)
Definition narrows (f : QuerySet row → option (QuerySet row)) : Prop :=
  (∀ qs, f qs = None) ∨
  ∃ P : row → Prop, ∀ qs, ∃ qs', f qs = Some qs' ∧ ∀ x, x ∈ qs' ↔ x ∈ qs ∧ P x.

(** The bindings whose method, if any, narrows. *)
Definition narrowing_binding (b : binding row) : Prop :=
  match b with
  | Lookup _ _ => True
  | Method method => ∀ name v, narrows (λ qs, method qs name v)
  end.

End narrowing_defs.

(** A request in which [name] is bound as [raw] says: left out ([None]) or
    given the value [v] ([Some v]). *)
Definition with_entry (data : gmap string value) (name : string)
    (raw : option value) : gmap string value :=
  match raw with
  | None => delete name data
  | Some v => <[name:=v]> data
  end.

(** Rows used in the examples below. *)
Definition laptop : Product.t := Product.mk 1 "Laptop" (99999 # 100) 5 0 0.
Definition desktop : Product.t := Product.mk 2 "Desktop Computer" (79999 # 100) 15 0 0.
Definition stand : Product.t := Product.mk 3 "Laptop Stand" (3999 # 100) 9 0 0.
Definition alice : Customer.t := Customer.mk 1 "Alice Johnson" "alice@example.com" (Some "+1234567890") 0 0.
Definition bob : Customer.t := Customer.mk 2 "Bob Smith" "bob@example.com" (Some "123-456-7890") 0 0.
Definition david : Customer.t := Customer.mk 4 "David Brown" "david@example.com" None 0 0.
Definition order1 : Order.t := Order.mk 1 alice [laptop; stand] (103998 # 100) 100 100 100.
Definition order2 : Order.t := Order.mk 2 bob [desktop] (79999 # 100) 200 200 200.

(** *** The condition a narrowing step stands for *)

Section conditions.
Context {row : Type}.

(** [None] for a step that rejects its value, [Some P] for one that keeps
    the rows satisfying [P]. *)
Definition keeps (f : QuerySet row → option (QuerySet row))
    (P : option (row → Prop)) : Prop :=
  match P with
  | None => ∀ qs, f qs = None
  | Some P => ∀ qs, ∃ qs', f qs = Some qs' ∧ ∀ x, x ∈ qs' ↔ x ∈ qs ∧ P x
  end.

(** The condition of one step after another. *)
Definition both (P Q : option (row → Prop)) : option (row → Prop) :=
  match P, Q with
  | Some P, Some Q => Some (λ x, P x ∧ Q x)
  | _, _ => None
  end.

Definition same_condition (P Q : option (row → Prop)) : Prop :=
  match P, Q with
  | Some P, Some Q => ∀ x, P x ↔ Q x
  | None, None => True
  | _, _ => False
  end.

End conditions.

(** ** Regular expressions, for the phone patterns *)

(** The patterns of the repository are built from single characters, [\d],
    sequence, [|], [?] and counted repetition. *)
Inductive regex : Type :=
  | Never
  | Empty
  | Lit (c : Ascii.ascii)
  | Digit
  | Cat (r1 r2 : regex)
  | Alt (r1 r2 : regex).

(** [r?] *)
Definition Opt (r : regex) : regex := Alt r Empty.

(** [r{n}] *)
Fixpoint Times (n : nat) (r : regex) : regex :=
  match n with
  | O => Empty
  | S n => Cat r (Times n r)
  end.

(** [r{0,n}] *)
Fixpoint UpTo (n : nat) (r : regex) : regex :=
  match n with
  | O => Empty
  | S n => Opt (Cat r (UpTo n r))
  end.

(** [r{lo,hi}] *)
Definition Rep (lo hi : nat) (r : regex) : regex := Cat (Times lo r) (UpTo (hi - lo) r).

(** [\d], on characters below 256: the ten digits. *)
Definition is_digit (c : Ascii.ascii) : bool :=
  let n := Ascii.nat_of_ascii c in ((48 <=? n) && (n <=? 57))%nat.

Fixpoint nullable (r : regex) : bool :=
  match r with
  | Never | Lit _ | Digit => false
  | Empty => true
  | Cat r1 r2 => nullable r1 && nullable r2
  | Alt r1 r2 => nullable r1 || nullable r2
  end.

(** What is left of [r] to match after the character [c]. *)
Fixpoint deriv (c : Ascii.ascii) (r : regex) : regex :=
  match r with
  | Never | Empty => Never
  | Lit c' => if Ascii.eqb c c' then Empty else Never
  | Digit => if is_digit c then Empty else Never
  | Cat r1 r2 =>
      if nullable r1 then Alt (Cat (deriv c r1) r2) (deriv c r2)
      else Cat (deriv c r1) r2
  | Alt r1 r2 => Alt (deriv c r1) (deriv c r2)
  end.

(** Whether the whole of [s] matches [r]. *)
Fixpoint accepts (r : regex) (s : string) : bool :=
  match s with
  | EmptyString => nullable r
  | String c s' => accepts (deriv c r) s'
  end.

(** [s] without its last character, when that is a newline. *)
Fixpoint before_final_newline (s : string) : option string :=
  match s with
  | EmptyString => None
  | String c EmptyString => if Ascii.eqb c "010"%char then Some EmptyString else None
  | String c s' => String c <$> before_final_newline s'
  end.

(** [re.match(pattern, s)] for a pattern each alternative of which is
    [^body$]: the body matches all of [s], or all of [s] but a final
    newline, before which [$] matches as well. *)
Definition re_match (body : regex) (s : string) : bool :=
  accepts body s ||
  match before_final_newline s with
  | Some s' => accepts body s'
  | None => false
  end.

(** [^\+?1?\d{9,15}$], the pattern of the validator of [Customer.phone]. *)
Definition phone_regex : regex :=
  Cat (Opt (Lit "+")) (Cat (Opt (Lit "1")) (Rep 9 15 Digit)).

(** [^\+?1?\d{9,15}$|^\d{3}-\d{3}-\d{4}$], the pattern of the mutations. *)
Definition phone_pattern : regex :=
  Alt phone_regex
      (Cat (Times 3 Digit) (Cat (Lit "-")
        (Cat (Times 3 Digit) (Cat (Lit "-") (Times 4 Digit))))).

(** ** crm/models.py: the methods of the models *)

(** [Product.clean]: [None] when it returns, [Some msg] when it raises
    [ValueError(msg)]. *)
Definition Product_clean (self : Product.t) : option string :=
  if Qle_bool (Product.price self) 0 then Some "Price must be positive"
  else if Product.stock self <? 0 then Some "Stock cannot be negative"
  else None.

(** [sum(product.price for product in products)] *)
Definition sum_prices (products : list Product.t) : Q :=
  foldl (λ total p, (total + Product.price p)%Q) 0%Q products.

Definition set_total_amount (self : Order.t) (total : Q) : Order.t :=
  Order.mk (Order.id self) (Order.customer self) (Order.products self) total
           (Order.order_date self) (Order.created_at self) (Order.updated_at self).

(** [Order.calculate_total]: the order with its new [total_amount], and the
    total returned. *)
Definition calculate_total (self : Order.t) : Order.t * Q :=
  let total := sum_prices (Order.products self) in
  (set_total_amount self total, total).

(** ** The database *)

(** The three tables, each the list of its rows; an order row carries the
    customer its foreign key points to and the products related to it. *)
Record Db : Type := {
  customers : list Customer.t;
  products : list Product.t;
  orders : list Order.t;
}.

(** What the repository does not fix about the database it runs on: the
    time of a write, what a [DecimalField(max_digits=10, decimal_places=2)]
    column keeps of a number, the rows it refuses to write (for a length or
    a precision the engine enforces), with [str(e)] of the exception, and
    the text of the exceptions for a repeated email and a NULL
    [order_date]. *)
Class Backend : Type := {
  clock : Db → Z;
  quantize : Q → Q;
  customer_refused : Customer.t → option string;
  product_refused : Product.t → option string;
  order_refused : Order.t → option string;
  duplicate_email : string;
  null_order_date : string;
}.

(** The next value of an [AutoField]: above every key of the table. *)
Definition next_id (ids : list Z) : Z := 1 + foldr Z.max 0 ids.

(** [Customer.objects.filter(email=email).exists()] *)
Definition email_exists (db : Db) (email : string) : bool :=
  existsb (λ c, String.eqb (Customer.email c) email) (customers db).

(** [Customer.objects.get(id=id)]: [None] is [Customer.DoesNotExist]; a
    primary key has at most one row. *)
Definition Customer_get (db : Db) (id : Z) : option Customer.t :=
  find (λ c, Customer.id c =? id) (customers db).

(** [Product.objects.filter(id__in=ids)] *)
Definition Product_filter_id_in (db : Db) (ids : list Z) : list Product.t :=
  filter (λ p, Product.id p ∈ ids) (products db).

Section orm.
Context `{Backend}.

(** [Customer.objects.create(name=, email=, phone=)]: the tables after it
    and the new row, or [str(e)] of the exception, the tables then being
    as before. *)
Definition Customer_create (db : Db) (name email : string) (phone : option string)
    : Db * Customer.t + string :=
  let c := Customer.mk (next_id (Customer.id <$> customers db)) name email phone
                       (clock db) (clock db) in
  if email_exists db email then inr duplicate_email    (* unique=True *)
  else match customer_refused c with
       | Some e => inr e
       | None => inl ({| customers := customers db ++ [c];
                         products := products db; orders := orders db |}, c)
       end.

(** [Product.objects.create(name=, price=, stock=)]: the row written keeps
    of the price what the column keeps; the object returned has the price
    it was given. *)
Definition Product_create (db : Db) (name : string) (price : Q) (stock : Z)
    : Db * Product.t + string :=
  let id := next_id (Product.id <$> products db) in
  let p := Product.mk id name price stock (clock db) (clock db) in
  let row := Product.mk id name (quantize price) stock (clock db) (clock db) in
  match product_refused p with
  | Some e => inr e
  | None => inl ({| customers := customers db; products := products db ++ [row];
                    orders := orders db |}, p)
  end.

End orm.

Section orm_orders.
Context `{Backend}.

Definition stored_order (self : Order.t) : Order.t :=
  set_total_amount self (quantize (Order.total_amount self)).

Definition replace_order (db : Db) (row : Order.t) : Db :=
  {| customers := customers db; products := products db;
     orders := (λ r, if Order.id r =? Order.id row then row else r) <$> orders db |}.

(** [models.Model.save] of an order: the INSERT of a new object, which
    gives it its key and its dates, or the UPDATE of the row of its key,
    which renews [updated_at]; [inr] is [str(e)] of the exception. *)
Definition Model_save (db : Db) (adding : bool) (self : Order.t)
    : Db * Order.t + string :=
  let self :=
    if adding then
      Order.mk (next_id (Order.id <$> orders db)) (Order.customer self)
               (Order.products self) (Order.total_amount self)
               (Order.order_date self) (clock db) (clock db)
    else
      Order.mk (Order.id self) (Order.customer self) (Order.products self)
               (Order.total_amount self) (Order.order_date self)
               (Order.created_at self) (clock db) in
  match order_refused self with
  | Some e => inr e
  | None =>
      inl (if adding
           then {| customers := customers db; products := products db;
                   orders := orders db ++ [stored_order self] |}
           else replace_order db (stored_order self), self)
  end.

(** [models.Model.save(update_fields=['total_amount'])] *)
Definition Model_save_total_amount (db : Db) (self : Order.t) : Db * Order.t + string :=
  match order_refused self with
  | Some e => inr e
  | None => inl (replace_order db (stored_order self), self)
  end.

(** [Order.save] of crm/models.py: save first, then calculate the total if
    products exist. *)
Definition Order_save (db : Db) (adding : bool) (self : Order.t)
    : Db * Order.t + string :=
  match Model_save db adding self with
  | inr e => inr e
  | inl (db, self) =>
      if bool_decide (Order.products self ≠ [])       (* self.products.exists() *)
      then Model_save_total_amount db (calculate_total self).1
      else inl (db, self)
  end.

(** [Order.objects.create(customer=, order_date=)]: [total_amount] takes its
    default; an [order_date] of [None] is written as NULL, which the
    column refuses. *)
Definition Order_create (db : Db) (customer : Customer.t) (order_date : option Z)
    : Db * Order.t + string :=
  match order_date with
  | None => inr null_order_date
  | Some d => Order_save db true (Order.mk 0 customer [] 0%Q d 0 0)
  end.

Definition set_products (self : Order.t) (ps : list Product.t) : Order.t :=
  Order.mk (Order.id self) (Order.customer self) ps (Order.total_amount self)
           (Order.order_date self) (Order.created_at self) (Order.updated_at self).

(** [order.products.set(products)]: the rows of the relation of the order
    are replaced; the object reads its products from them. *)
Definition products_set (db : Db) (self : Order.t) (ps : list Product.t) : Db * Order.t :=
  ({| customers := customers db; products := products db;
      orders := (λ r, if Order.id r =? Order.id self then set_products r ps else r)
                  <$> orders db |},
   set_products self ps).

End orm_orders.

(** ** crm/schema.py *)

Module CustomerInput.
Record t : Type := mk { name : string; email : string; phone : option string }.
End CustomerInput.

Module ProductInput.
Record t : Type := mk { name : string; price : Q; stock : option Z }.
End ProductInput.

(** The identifiers are the integers the [ID] values denote. *)
Module OrderInput.
Record t : Type := mk { customer_id : Z; product_ids : list Z; order_date : option Z }.
End OrderInput.

(** [CustomerMutationResponse], [ProductMutationResponse] and
    [OrderMutationResponse]: the object ([customer], [product], [order]),
    [message] and [errors], each [None] unless given. *)
Module MutationResponse.
Record t (A : Type) : Type := mk {
  object : option A;
  message : option string;
  errors : option (list string);
}.
Arguments mk {A} object message errors.
Arguments object {A} _.
Arguments message {A} _.
Arguments errors {A} _.
End MutationResponse.

Module BulkCustomerMutationResponse.
Record t : Type := mk { customers : list Customer.t; errors : list string }.
End BulkCustomerMutationResponse.

(** [if input.phone: if not re.match(phone_pattern, input.phone)] *)
Definition phone_invalid (phone : option string) : bool :=
  match phone with
  | Some ph => negb (String.eqb ph "") && negb (re_match phone_pattern ph)
  | None => false
  end.

Section mutations.
Context `{Backend}.

(** [CreateCustomer.mutate] *)
Definition CreateCustomer_mutate (db : Db) (input : CustomerInput.t)
    : Db * MutationResponse.t Customer.t :=
  let errors := [] in
  let errors :=
    if email_exists db (CustomerInput.email input)
    then (errors ++ ["Email already exists"])%list else errors in
  let errors :=
    if phone_invalid (CustomerInput.phone input)
    then (errors ++ ["Invalid phone format"])%list else errors in
  match errors with
  | _ :: _ => (db, MutationResponse.mk None None (Some errors))
  | [] =>
      match Customer_create db (CustomerInput.name input) (CustomerInput.email input)
                            (CustomerInput.phone input) with
      | inl (db', created) =>
          (db', MutationResponse.mk (Some created)
                  (Some "Customer created successfully") None)
      | inr e => (db, MutationResponse.mk None None (Some [e]))
      end
  end.

(** [str(e)] of the [TransactionManagementError] a query raises inside an
    [atomic] block once an error of the database has marked the
    transaction for rollback. *)
Definition broken_transaction : string :=
  "An error occurred in the current transaction. You can't execute queries until the end of the 'atomic' block.".

(** [with transaction.atomic():] around a block no exception leaves: the
    block gives the tables, whether an error of the database inside it
    marked the transaction for rollback, and its result.  On leaving the
    block the writes are kept, unless the transaction is marked: then the
    tables are those the block was entered with. *)
Definition atomic {A : Type} (db : Db) (block : Db → Db * bool * A) : Db * A :=
  let out := block db in
  (if out.1.2 then db else out.1.1, out.2).

(** The loop of [BulkCreateCustomers.mutate], from index [i] on, inside the
    [atomic] block.  The exception of an insert is caught inside the loop
    and reported, and [Model.save] has marked the transaction for rollback
    ([needs_rollback]); from then on the first query of every input, the
    look-up of the email, raises [TransactionManagementError], which is
    caught and reported in its turn, and nothing more is created. *)
Fixpoint bulk_loop (db : Db) (needs_rollback : bool) (i : nat)
    (input : list CustomerInput.t)
    (customers : list Customer.t) (errors : list string)
    : Db * bool * BulkCustomerMutationResponse.t :=
  match input with
  | [] => (db, needs_rollback, BulkCustomerMutationResponse.mk customers errors)
  | customer_data :: rest =>
      let label := "Customer " +:+ pretty (S i) +:+ ": " in
      if needs_rollback
      then bulk_loop db true (S i) rest customers
             (errors ++ [label +:+ broken_transaction])%list
      else if email_exists db (CustomerInput.email customer_data)
      then bulk_loop db false (S i) rest customers
             (errors ++ [label +:+ "Email already exists"])%list
      else if phone_invalid (CustomerInput.phone customer_data)
      then bulk_loop db false (S i) rest customers
             (errors ++ [label +:+ "Invalid phone format"])%list
      else match Customer_create db (CustomerInput.name customer_data)
                   (CustomerInput.email customer_data)
                   (CustomerInput.phone customer_data) with
           | inl (db', created) =>
               bulk_loop db' false (S i) rest (customers ++ [created])%list errors
           | inr e =>
               bulk_loop db true (S i) rest customers (errors ++ [label +:+ e])%list
           end
  end.

(** [BulkCreateCustomers.mutate]: the customers created before an insert
    was refused stay in the response, though the rollback takes their rows
    away. *)
Definition BulkCreateCustomers_mutate (db : Db) (input : list CustomerInput.t)
    : Db * BulkCustomerMutationResponse.t :=
  atomic db (λ db, bulk_loop db false 0 input [] []).

(** [CreateCustomer.mutate] called on each input in turn, the customers
    returned being collected after [customers]. *)
Definition CreateCustomer_in_turn (db : Db) (customers : list Customer.t)
    (input : list CustomerInput.t) : Db * list Customer.t :=
  foldl (λ acc x, let r := CreateCustomer_mutate acc.1 x in
                  (r.1, (acc.2 ++ option_list (MutationResponse.object r.2))%list))
        (db, customers) input.

(** [CreateProduct.mutate] *)
Definition CreateProduct_mutate (db : Db) (input : ProductInput.t)
    : Db * MutationResponse.t Product.t :=
  let errors := [] in
  let errors :=
    if Qle_bool (ProductInput.price input) 0
    then (errors ++ ["Price must be positive"])%list else errors in
  let stock := default 0 (ProductInput.stock input) in
  let errors :=
    if stock <? 0 then (errors ++ ["Stock cannot be negative"])%list else errors in
  match errors with
  | _ :: _ => (db, MutationResponse.mk None None (Some errors))
  | [] =>
      match Product_create db (ProductInput.name input) (ProductInput.price input) stock with
      | inl (db', created) =>
          (db', MutationResponse.mk (Some created)
                  (Some "Product created successfully") None)
      | inr e => (db, MutationResponse.mk None None (Some [e]))
      end
  end.

(** The body of [with transaction.atomic()] in [CreateOrder.mutate]. *)
Definition place_order (db : Db) (customer : Customer.t) (order_date : option Z)
    (products : list Product.t) : Db * Order.t + string :=
  match Order_create db customer order_date with
  | inr e => inr e
  | inl (db, created) =>
      let '(db, created) := products_set db created products in
      let total_amount := sum_prices products in
      let created := set_total_amount created total_amount in
      Order_save db false created
  end.

(** [CreateOrder.mutate]: an exception in the transaction leaves the
    tables as they were. *)
Definition CreateOrder_mutate (db : Db) (input : OrderInput.t)
    : Db * MutationResponse.t Order.t :=
  match Customer_get db (OrderInput.customer_id input) with
  | None => (db, MutationResponse.mk None None (Some ["Customer not found"]))
  | Some found =>
      match OrderInput.product_ids input with
      | [] => (db, MutationResponse.mk None None
                     (Some ["At least one product must be selected"]))
      | _ :: _ =>
          let products := Product_filter_id_in db (OrderInput.product_ids input) in
          if bool_decide (length products ≠ length (OrderInput.product_ids input))
          then (db, MutationResponse.mk None None
                      (Some ["One or more products not found"]))
          else match place_order db found (OrderInput.order_date input) products with
               | inl (db', created) =>
                   (db', MutationResponse.mk (Some created)
                           (Some "Order created successfully") None)
               | inr e => (db, MutationResponse.mk None None (Some [e]))
               end
      end
  end.

(** [Query.resolve_customer], [resolve_product], [resolve_order]: the row
    of the key, or [None]. *)
Definition resolve_customer (db : Db) (id : Z) : option Customer.t := Customer_get db id.

Definition resolve_product (db : Db) (id : Z) : option Product.t :=
  find (λ p, Product.id p =? id) (products db).

Definition resolve_order (db : Db) (id : Z) : option Order.t :=
  find (λ o, Order.id o =? id) (orders db).

End mutations.

(** A backend for the examples: it refuses no row, keeps a number as it is
    and stamps every write with the number of rows written before. *)
Definition plain_backend : Backend := {|
  clock db := Z.of_nat (length (customers db) + length (products db) + length (orders db));
  quantize q := q;
  customer_refused _ := None;
  product_refused _ := None;
  order_refused _ := None;
  duplicate_email := "UNIQUE constraint failed: crm_customer.email";
  null_order_date := "NOT NULL constraint failed: crm_order.order_date";
|}.

(** A database that keeps to [max_length], as PostgreSQL does: it refuses a
    customer whose name has more than 100 characters. *)
Definition strict_backend : Backend := {|
  clock db := Z.of_nat (length (customers db) + length (products db) + length (orders db));
  quantize q := q;
  customer_refused c :=
    if (100 <? String.length (Customer.name c))%nat
    then Some "value too long for type character varying(100)" else None;
  product_refused _ := None;
  order_refused _ := None;
  duplicate_email := "duplicate key value violates unique constraint";
  null_order_date := "null value in column violates not-null constraint";
|}.

Definition shop : Db :=
  {| customers := [alice; bob; david]; products := [laptop; desktop; stand];
     orders := [order1; order2] |}.

(** *** What a regular expression matches *)

(** The strings [r] matches. *)
Fixpoint lang (r : regex) (s : string) : Prop :=
  match r with
  | Never => False
  | Empty => s = ""
  | Lit c => s = String c ""
  | Digit => ∃ c, is_digit c = true ∧ s = String c ""
  | Cat r1 r2 => ∃ s1 s2, s = s1 +:+ s2 ∧ lang r1 s1 ∧ lang r2 s2
  | Alt r1 r2 => lang r1 s ∨ lang r2 s
  end.

(** Bounds on the length of a match. *)
Fixpoint min_length (r : regex) : nat :=
  match r with
  | Never | Empty => 0
  | Lit _ | Digit => 1
  | Cat r1 r2 => min_length r1 + min_length r2
  | Alt r1 r2 => min_length r1 `min` min_length r2
  end.

Fixpoint max_length (r : regex) : nat :=
  match r with
  | Never | Empty => 0
  | Lit _ | Digit => 1
  | Cat r1 r2 => max_length r1 + max_length r2
  | Alt r1 r2 => max_length r1 `max` max_length r2
  end.

(** The characters a match can contain. *)
Fixpoint may_contain (r : regex) (c : Ascii.ascii) : bool :=
  match r with
  | Never | Empty => false
  | Lit c' => Ascii.eqb c c'
  | Digit => is_digit c
  | Cat r1 r2 | Alt r1 r2 => may_contain r1 c || may_contain r2 c
  end.

(** [n] digits and nothing else. *)
Definition is_digits (n : nat) (s : string) : bool :=
  (String.length s =? n)%nat && forallb is_digit (String.list_ascii_of_string s).

(** The keys of the three tables and the emails of the customers are each
    without repetition. *)
Definition keys_unique (db : Db) : Prop :=
  NoDup (Customer.id <$> customers db) ∧
  NoDup (Customer.email <$> customers db) ∧
  NoDup (Product.id <$> products db) ∧
  NoDup (Order.id <$> orders db).

(** * Properties *)

(** ** What every filter does to a query set *)

Section narrowing.
Context {row : Type} `{!Model row}.
Implicit Types f g : QuerySet row → option (QuerySet row).

Lemma narrows_Some : narrows (row:=row) Some.
Proof. right. exists (λ _, True). intros qs. exists qs. split; [done|]. tauto. Qed.

Lemma elem_of_joined cells op rhs (r x : row) :
  x ∈ joined cells op rhs r ↔ x = r ∧ ∃ c, c ∈ cells r ∧ holds op c rhs.
Proof.
  unfold joined. rewrite list_elem_of_fmap.
  setoid_rewrite list_elem_of_filter. split.
  - intros (c & -> & Hc & Hin). eauto.
  - intros (-> & c & Hin & Hc). eauto.
Qed.

Lemma narrows_QuerySet_filter path op rhs :
  narrows (QuerySet_filter path op rhs).
Proof.
  unfold narrows, QuerySet_filter.
  destruct (resolve path) as [[c cells]|]; simpl; [|by left].
  destruct (prepare c op rhs) as [rhs'|]; simpl; [|by left].
  right. exists (λ x, ∃ c, c ∈ cells x ∧ holds op c rhs').
  intros qs. eexists. split; [done|]. intros x.
  rewrite list_elem_of_bind. setoid_rewrite elem_of_joined. split.
  - intros (y & (-> & Hc) & Hy). eauto.
  - intros (Hx & Hc). eauto.
Qed.

Lemma narrows_distinct f :
  narrows f → narrows (λ qs, distinct <$> f qs).
Proof.
  intros [Hf|[P Hf]]; [left|right].
  - intros qs. by rewrite Hf.
  - exists P. intros qs. destruct (Hf qs) as (qs' & -> & Hqs').
    eexists. split; [done|]. intros x.
    unfold distinct. by rewrite elem_of_remove_dups.
Qed.

Lemma narrows_bind f g :
  narrows f → narrows g → narrows (λ qs, f qs ≫= g).
Proof.
  intros [Hf|[P Hf]] Hg.
  - left. intros qs. by rewrite Hf.
  - destruct Hg as [Hg|[Q Hg]].
    + left. intros qs. destruct (Hf qs) as (qs' & -> & _). apply Hg.
    + right. exists (λ x, P x ∧ Q x). intros qs.
      destruct (Hf qs) as (qs1 & -> & Hq1). simpl.
      destruct (Hg qs1) as (qs2 & -> & Hq2).
      eexists. split; [done|]. intros x. rewrite Hq2, Hq1. tauto.
Qed.

(** A narrowing step returns rows of its input only. *)
Lemma narrows_subset f qs qs' x :
  narrows f → f qs = Some qs' → x ∈ qs' → x ∈ qs.
Proof.
  intros [Hf|[P Hf]] E Hx; [by rewrite Hf in E|].
  destruct (Hf qs) as (qs1 & E1 & Hq1). simplify_eq. by apply Hq1.
Qed.

(** Two narrowing steps commute, as far as the set of rows goes. *)
Lemma narrows_comm f g qs :
  narrows f → narrows g → same_rows (f qs ≫= g) (g qs ≫= f).
Proof.
  intros [Hf|[P Hf]] [Hg|[Q Hg]].
  - by rewrite Hf, Hg.
  - rewrite Hf. destruct (Hg qs) as (qs1 & -> & _). simpl. by rewrite Hf.
  - rewrite Hg. destruct (Hf qs) as (qs1 & -> & _). simpl. by rewrite Hg.
  - destruct (Hf qs) as (qs1 & -> & Hq1). destruct (Hg qs) as (qs2 & -> & Hq2).
    simpl. destruct (Hg qs1) as (qs3 & -> & Hq3). destruct (Hf qs2) as (qs4 & -> & Hq4).
    simpl. intros x. rewrite Hq3, Hq4, Hq1, Hq2. tauto.
Qed.

Lemma narrows_filter_ name b v :
  narrowing_binding b → narrows (λ qs, filter_ name b qs v).
Proof.
  intros Hb. unfold filter_. destruct (EMPTY_VALUES v).
  - apply narrows_Some.
  - destruct b as [path op|m]; [apply narrows_QuerySet_filter|apply Hb].
Qed.

Lemma narrows_filter_queryset fs data :
  Forall (λ d, narrowing_binding d.2.2) fs →
  narrows (filter_queryset fs data).
Proof.
  induction 1 as [|[name [cls b]] fs Hb _ IH]; simpl.
  - apply narrows_Some.
  - apply (narrows_bind (λ qs, filter_ name b qs _) _); [|done].
    by apply narrows_filter_.
Qed.

(** *** Values that switch a filter off *)

Lemma filter_empty name b qs v : EMPTY_VALUES v = true → filter_ name b qs v = Some qs.
Proof. unfold filter_. by intros ->. Qed.

Lemma EMPTY_VALUES_empty_value cls : EMPTY_VALUES (empty_value cls) = true.
Proof. by destruct cls. Qed.

Lemma EMPTY_VALUES_clean cls v : EMPTY_VALUES v = true → EMPTY_VALUES (clean cls v) = true.
Proof.
  destruct cls, v as [|s| | | |]; simpl; try done.
  intros Hs. apply bool_decide_eq_true in Hs. by subst.
Qed.

(** Only the entries of declared names are read. *)
Lemma filter_queryset_ext fs data1 data2 qs :
  (∀ name, name ∈ fs.*1 → data1 !! name = data2 !! name) →
  filter_queryset fs data1 qs = filter_queryset fs data2 qs.
Proof.
  revert qs. induction fs as [|[name [cls b]] fs IH]; intros qs Hd; [done|].
  simpl. unfold cleaned_data. rewrite (Hd name) by (simpl; left).
  destruct (filter_ _ _ _ _); simpl; [|done].
  apply IH. intros n Hn. apply Hd. simpl. by right.
Qed.

(** An entry with an empty value counts as no entry. *)
Lemma filter_queryset_empty fs data name v qs :
  EMPTY_VALUES v = true →
  filter_queryset fs (<[name:=v]> data) qs = filter_queryset fs (delete name data) qs.
Proof.
  intros Hv. revert qs. induction fs as [|[n [cls b]] fs IH]; intros qs; [done|].
  simpl. unfold cleaned_data. destruct (decide (name = n)) as [->|Hne].
  - rewrite lookup_insert_eq, lookup_delete_eq. simpl.
    rewrite !filter_empty by auto using EMPTY_VALUES_empty_value, EMPTY_VALUES_clean.
    simpl. apply IH.
  - rewrite lookup_insert_ne, lookup_delete_ne by done.
    destruct (filter_ _ _ _ _); simpl; [apply IH|done].
Qed.

(** With no entry that is not empty, nothing is filtered. *)
Lemma filter_queryset_no_values fs data qs :
  (∀ name v, name ∈ fs.*1 → data !! name = Some v → EMPTY_VALUES v = true) →
  filter_queryset fs data qs = Some qs.
Proof.
  induction fs as [|[n [cls b]] fs IH]; intros Hd; [done|].
  simpl. rewrite filter_empty; simpl.
  - apply IH. intros name v Hn. apply Hd. simpl. by right.
  - unfold cleaned_data. apply EMPTY_VALUES_clean.
    destruct (data !! n) as [v|] eqn:E; simpl.
    + apply (Hd n); [simpl; left|done].
    + apply EMPTY_VALUES_empty_value.
Qed.

End narrowing.

(** ** The three filter sets *)

Lemma narrows_filter_phone_pattern name v :
  narrows (λ queryset, filter_phone_pattern queryset name v).
Proof.
  unfold filter_phone_pattern. destruct (truthy v).
  - apply narrows_QuerySet_filter.
  - apply narrows_Some.
Qed.

Lemma narrows_filter_low_stock name v :
  narrows (λ queryset, filter_low_stock queryset name v).
Proof.
  unfold filter_low_stock. destruct (truthy v).
  - apply narrows_QuerySet_filter.
  - apply narrows_Some.
Qed.

Lemma narrows_filter_by_product_id name v :
  narrows (λ queryset, filter_by_product_id queryset name v).
Proof.
  unfold filter_by_product_id. destruct (truthy v).
  - apply narrows_distinct, narrows_QuerySet_filter.
  - apply narrows_Some.
Qed.

Lemma narrows_qs (e : entity) (data : gmap string value) :
  narrows (qs (filterset e) data).
Proof.
  unfold qs. apply narrows_filter_queryset.
  destruct e; simpl;
    repeat (apply List.Forall_cons; [simpl; try exact I|]); try apply List.Forall_nil.
  - apply narrows_filter_phone_pattern.
  - apply narrows_filter_low_stock.
  - apply narrows_filter_by_product_id.
Qed.

(** C9: whatever the entity, the input collection and the request, every
    row of the result of applying the filters is a row of the input
    collection: filtering never adds a record. *)
Theorem filters_only_narrow (e : entity) (data : gmap string value)
    (C R : QuerySet (row (filterset e))) (x : row (filterset e)) :
  qs (filterset e) data C = Some R → x ∈ R → x ∈ C.
Proof. apply narrows_subset, narrows_qs. Qed.

Lemma filters_only_narrow_witness :
  qs ProductFilter {[ "low_stock" := VBool true ]} [laptop; desktop; stand]
    = Some [laptop; stand] ∧
  stand ∈ [laptop; desktop; stand].
Proof.
  split; [vm_compute; reflexivity|].
  apply (filters_only_narrow product {[ "low_stock" := VBool true ]}
           [laptop; desktop; stand] [laptop; stand] stand).
  - vm_compute; reflexivity.
  - apply list_elem_of_further, list_elem_of_here.
Defined.

(** C7: for a fixed input collection and two declared filters with supplied
    values, applying the one and then the other gives the same set of rows
    as applying them in the reverse order. *)
Theorem filter_order_independent (e : entity) (C : QuerySet (row (filterset e)))
    (a b : string) (va vb : value) :
  declared (filterset e) a → declared (filterset e) b →
  same_rows (qs (filterset e) {[ a := va ]} C ≫= qs (filterset e) {[ b := vb ]})
            (qs (filterset e) {[ b := vb ]} C ≫= qs (filterset e) {[ a := va ]}).
Proof. intros _ _. apply narrows_comm; apply narrows_qs. Qed.

Lemma filter_order_independent_witness :
  same_rows
    (qs ProductFilter {[ "price_gte" := VDecimal 100 ]} [laptop; desktop; stand]
       ≫= qs ProductFilter {[ "stock" := VDecimal 5 ]})
    (qs ProductFilter {[ "stock" := VDecimal 5 ]} [laptop; desktop; stand]
       ≫= qs ProductFilter {[ "price_gte" := VDecimal 100 ]}).
Proof.
  apply (filter_order_independent product [laptop; desktop; stand]
           "price_gte" "stock" (VDecimal 100) (VDecimal 5)).
  - unfold declared. vm_compute. do 1 apply list_elem_of_further. apply list_elem_of_here.
  - unfold declared. vm_compute. do 5 apply list_elem_of_further. apply list_elem_of_here.
Defined.

(** C2: for every entity, every declared filter name and every input
    collection, a request in which the filter's value is absent, null or the
    empty string gives what the same request without the filter gives. *)
Theorem empty_value_is_noop (e : entity) (name : string) (raw : option value)
    (data : gmap string value) (C : QuerySet (row (filterset e))) :
  declared (filterset e) name →
  raw ∈ [None; Some VNone; Some (VStr "")] →
  qs (filterset e) (with_entry data name raw) C
    = qs (filterset e) (delete name data) C.
Proof.
  intros _ Hraw. unfold qs.
  rewrite !elem_of_cons in Hraw.
  destruct Hraw as [->|[->|[->|Hnil]]]; simpl.
  - done.
  - by apply filter_queryset_empty.
  - by apply filter_queryset_empty.
  - by apply not_elem_of_nil in Hnil.
Qed.

Lemma empty_value_is_noop_witness :
  qs ProductFilter
     (with_entry {[ "price_gte" := VStr ""; "low_stock" := VBool true ]}
                 "price_gte" (Some (VStr "")))
     [laptop; desktop; stand]
  = qs ProductFilter
       (delete "price_gte" {[ "price_gte" := VStr ""; "low_stock" := VBool true ]})
       [laptop; desktop; stand].
Proof.
  apply (empty_value_is_noop product "price_gte" (Some (VStr ""))).
  - unfold declared. vm_compute. apply list_elem_of_further, list_elem_of_here.
  - apply list_elem_of_further, list_elem_of_further, list_elem_of_here.
Defined.

(** C6: for every entity, input collection and request, a binding for a
    filter name the entity's filter set does not declare changes nothing:
    the outcome is that of the request without the name, and so never an
    error the request without it would not give. *)
Theorem unknown_filter_ignored (e : entity) (name : string) (v : value)
    (data : gmap string value) (C : QuerySet (row (filterset e))) :
  ¬ declared (filterset e) name →
  qs (filterset e) (<[name:=v]> data) C = qs (filterset e) (delete name data) C ∧
  qs (filterset e) (<[name:=v]> data) C = qs (filterset e) data C.
Proof.
  intros Hname. unfold qs.
  split; apply filter_queryset_ext; intros n Hn;
    assert (name ≠ n) by (intros ->; by apply Hname).
  - by rewrite lookup_insert_ne, lookup_delete_ne.
  - by rewrite lookup_insert_ne.
Qed.

Lemma unknown_filter_ignored_witness :
  qs CustomerFilter (<[ "first" := VInt 10 ]> {[ "name" := VStr "ali" ]})
     [alice; bob; david]
  = qs CustomerFilter (delete "first" {[ "name" := VStr "ali" ]}) [alice; bob; david] ∧
  qs CustomerFilter (<[ "first" := VInt 10 ]> {[ "name" := VStr "ali" ]})
     [alice; bob; david]
  = qs CustomerFilter {[ "name" := VStr "ali" ]} [alice; bob; david].
Proof.
  apply (unknown_filter_ignored customer "first" (VInt 10)).
  unfold declared. simpl. rewrite !elem_of_cons, elem_of_nil.
  intros Hin. repeat destruct Hin as [Hin|Hin]; discriminate || done.
Defined.

(** ** Evaluating a request with a single entry *)

Section evaluation.
Context {row : Type} `{!Model row}.

Lemma filter_queryset_skip name cls (b : binding row) fs data qs :
  EMPTY_VALUES (cleaned_data data name cls) = true →
  filter_queryset ((name, (cls, b)) :: fs) data qs = filter_queryset fs data qs.
Proof. intros Hv. simpl. by rewrite filter_empty. Qed.

Lemma filter_queryset_cons name cls (b : binding row) fs data qs :
  filter_queryset ((name, (cls, b)) :: fs) data qs
    = filter_ name b qs (cleaned_data data name cls) ≫= filter_queryset fs data.
Proof. reflexivity. Qed.

Lemma filter_queryset_last name cls (b : binding row) data qs :
  filter_queryset [(name, (cls, b))] data qs
    = filter_ name b qs (cleaned_data data name cls).
Proof. simpl. by destruct (filter_ _ _ _ _). Qed.

(** Along a path that joins each row to one cell, [filter] keeps the rows
    whose cell satisfies the lookup, once each and in their order. *)
Lemma bind_joined_single (cell : row → value) op rhs (qs : QuerySet row) :
  qs ≫= joined (λ r, [cell r]) op rhs = filter (λ r, holds op (cell r) rhs) qs.
Proof.
  induction qs as [|r qs IH]; [done|].
  rewrite bind_cons, IH, filter_cons. unfold joined.
  rewrite filter_cons, filter_nil. by destruct (decide _).
Qed.

End evaluation.

Lemma cleaned_data_singleton name v cls :
  cleaned_data {[ name := v ]} name cls = clean cls v.
Proof. unfold cleaned_data. by rewrite lookup_singleton_eq. Qed.

(** Steps over the declared filters the request has no entry for, down to
    the one it names. *)
Ltac to_entry :=
  unfold qs; cbn [filters CustomerFilter ProductFilter OrderFilter];
  rewrite !filter_queryset_skip by (vm_compute; reflexivity);
  try (rewrite filter_queryset_last, cleaned_data_singleton; cbn [clean]).

(** C4: over any product collection, [low_stock] with the value true keeps
    exactly the products whose stock is strictly less than 10, and with the
    value false, or left out, returns the collection as it is. *)
Theorem low_stock_filter (C : QuerySet Product.t) :
  qs ProductFilter {[ "low_stock" := VBool true ]} C
    = Some (filter (λ p, Product.stock p < 10) C) ∧
  qs ProductFilter {[ "low_stock" := VBool false ]} C = Some C ∧
  qs ProductFilter ∅ C = Some C.
Proof.
  split; [|split].
  - to_entry. unfold filter_, filter_low_stock. simpl.
    unfold QuerySet_filter. simpl. f_equal.
    rewrite (bind_joined_single (λ r, VInt (Product.stock r))).
    apply list_filter_iff. intros p. simpl. unfold Z.lt.
    destruct (Product.stock p ?= 10); simpl; split; done.
  - to_entry. done.
  - unfold qs. apply filter_queryset_no_values. intros name v _.
    by rewrite lookup_empty.
Qed.

(** C5, as the code has it: over any customer collection,
    [phone_pattern] works on the value stripped of the whitespace around
    it.  With a value without a null character, which the form field
    refuses, and whose stripped form is not empty, it keeps exactly the
    customers whose phone number starts with the stripped value; with a
    value that strips to the empty string, or left out, it returns the
    collection as it is. *)
Theorem phone_pattern_filter (C : QuerySet Customer.t) (v : string) :
  (¬ In "000"%char (String.list_ascii_of_string v) → strip v ≠ "" →
   qs CustomerFilter {[ "phone_pattern" := VStr v ]} C
     = Some (filter (λ c, from_option (String.prefix (strip v)) false (Customer.phone c))
               C)) ∧
  (strip v = "" → qs CustomerFilter {[ "phone_pattern" := VStr v ]} C = Some C) ∧
  qs CustomerFilter ∅ C = Some C.
Proof.
  split; [|split].
  - intros _ Hv. to_entry. unfold filter_, filter_phone_pattern. simpl.
    rewrite bool_decide_eq_false_2 by done. simpl.
    unfold QuerySet_filter. simpl. f_equal.
    rewrite (bind_joined_single (λ r, from_option VStr VNone (Customer.phone r))).
    apply list_filter_iff. intros c. by destruct (Customer.phone c).
  - intros Hv. to_entry. rewrite Hv. done.
  - unfold qs. apply filter_queryset_no_values. intros name w _.
    by rewrite lookup_empty.
Qed.

Lemma phone_pattern_filter_witness :
  strip " +1 " = "+1" ∧
  qs CustomerFilter {[ "phone_pattern" := VStr " +1 " ]} [alice; bob; david]
    = Some (filter (λ c, from_option (String.prefix (strip " +1 ")) false
                           (Customer.phone c))
              [alice; bob; david]) ∧
  qs CustomerFilter {[ "phone_pattern" := VStr "  " ]} [alice; bob; david]
    = Some [alice; bob; david].
Proof.
  split; [reflexivity|]. split.
  - apply (proj1 (phone_pattern_filter [alice; bob; david] " +1 ")).
    + simpl. intros [Hc|[Hc|[Hc|[Hc|[]]]]]; discriminate Hc.
    + discriminate.
  - apply (proj1 (proj2 (phone_pattern_filter [alice; bob; david] "  "))).
    reflexivity.
Defined.

(** C5, as the claim words it, fails: the value " +1" is not empty, the
    filter returns alice, whose phone number starts with "+1", and no phone
    number starts with " +1". *)
Lemma phone_pattern_filter_counterexample :
  " +1" ≠ "" ∧
  qs CustomerFilter {[ "phone_pattern" := VStr " +1" ]} [alice; bob; david]
    = Some [alice] ∧
  filter (λ c, from_option (String.prefix " +1") false (Customer.phone c))
         [alice; bob; david] = [] ∧
  qs CustomerFilter {[ "phone_pattern" := VStr " +1" ]} [alice; bob; david]
    ≠ Some (filter (λ c, from_option (String.prefix " +1") false (Customer.phone c))
              [alice; bob; david]).
Proof.
  split; [discriminate|]. split; [vm_compute; reflexivity|].
  split; [vm_compute; reflexivity|]. vm_compute. discriminate.
Qed.

(** C10: over any order collection, [product_id] with the number 0 returns
    the collection as it is: the method's [if value:] takes 0 for no value. *)
Theorem product_id_zero_is_noop (C : QuerySet Order.t) :
  qs OrderFilter {[ "product_id" := VDecimal 0 ]} C = Some C ∧
  qs OrderFilter {[ "product_id" := VInt 0 ]} C = Some C.
Proof. split; to_entry; done. Qed.

Lemma truthy_decimal_of_Z (n : Z) : n ≠ 0 → truthy (VDecimal (inject_Z n)) = true.
Proof.
  intros Hn. simpl. unfold Qeq_bool. simpl.
  apply negb_true_iff, Z.eqb_neq. lia.
Qed.

Lemma int_of_decimal_of_Z (n : Z) : int_of_decimal (inject_Z n) = n.
Proof. unfold int_of_decimal. simpl. apply Z.quot_1_r. Qed.

Lemma holds_exact_int (a b : Z) : holds exact (VInt a) (VInt b) ↔ a = b.
Proof.
  simpl. rewrite <- Z.compare_eq_iff. destruct (a ?= b); simpl; split; done.
Qed.

(** C3: over any order collection, [product_id] with the identifier of a
    product, the identifier being truthy (not 0), returns exactly the orders
    that have that product among their products, each of them once. *)
Theorem product_id_filter (C : QuerySet Order.t) (n : Z) :
  n ≠ 0 →
  ∃ R : QuerySet Order.t,
    qs OrderFilter {[ "product_id" := VDecimal (inject_Z n) ]} C = Some R ∧
    (∀ o, o ∈ R ↔ o ∈ C ∧ ∃ p, p ∈ Order.products o ∧ Product.id p = n) ∧
    NoDup R.
Proof.
  intros Hn. eexists. split; [|split].
  - to_entry. unfold filter_, filter_by_product_id.
    rewrite truthy_decimal_of_Z by done.
    unfold QuerySet_filter. simpl. rewrite int_of_decimal_of_Z. reflexivity.
  - intros o. unfold distinct. rewrite elem_of_remove_dups, list_elem_of_bind.
    setoid_rewrite elem_of_joined. setoid_rewrite list_elem_of_fmap. split.
    + intros (o' & (-> & c & (p & -> & Hp) & Hc) & Ho).
      apply holds_exact_int in Hc. eauto.
    + intros (Ho & p & Hp & Hid). exists o. split; [|done]. split; [done|].
      exists (VInt (Product.id p)). split; [eauto|]. by apply holds_exact_int.
  - apply NoDup_remove_dups.
Qed.

Lemma product_id_filter_witness :
  ∃ R : QuerySet Order.t,
    qs OrderFilter {[ "product_id" := VDecimal (inject_Z 3) ]} [order1; order2; order1]
      = Some R ∧
    (∀ o, o ∈ R ↔ o ∈ [order1; order2; order1] ∧
                   ∃ p, p ∈ Order.products o ∧ Product.id p = 3) ∧
    NoDup R.
Proof. apply (product_id_filter [order1; order2; order1] 3). lia. Defined.

(** The orders [product_name] returns are those with a product whose name
    contains the stripped value, whatever the case of the letters. *)
Lemma product_name_filter_rows (C : QuerySet Order.t) (v : string) :
  strip v ≠ "" →
  ∃ R : QuerySet Order.t,
    qs OrderFilter {[ "product_name" := VStr v ]} C = Some R ∧
    ∀ o, o ∈ R ↔
         o ∈ C ∧ ∃ p, p ∈ Order.products o ∧
                      icontains_str (Product.name p) (strip v).
Proof.
  intros Hv. eexists. split.
  - unfold qs; cbn [filters OrderFilter].
    rewrite !filter_queryset_skip by (vm_compute; reflexivity).
    rewrite filter_queryset_cons, cleaned_data_singleton. cbn [clean].
    unfold filter_, EMPTY_VALUES. rewrite bool_decide_eq_false_2 by done.
    unfold QuerySet_filter. simpl.
    rewrite filter_empty by (vm_compute; reflexivity). reflexivity.
  - intros o. rewrite list_elem_of_bind.
    setoid_rewrite elem_of_joined. setoid_rewrite list_elem_of_fmap. split.
    + intros (o' & (-> & c & (p & -> & Hp) & Hc) & Ho). eauto.
    + intros (Ho & p & Hp & Hc). exists o. split; [|done]. split; [done|].
      exists (VStr (Product.name p)). split; [eauto|done].
Qed.

(** C1: the order of the example has two products whose names contain
    "laptop"; [product_name] with that value returns the order twice, once
    per matching product, where the claim has it once. *)
Theorem product_name_repeats_order :
  qs OrderFilter {[ "product_name" := VStr "laptop" ]} [order1; order2]
    = Some [order1; order1].
Proof. vm_compute. reflexivity. Qed.

(** ** Further properties of the filters of crm/filters.py *)

Lemma holds_gte_decimal (x lo : Q) :
  holds gte (VDecimal x) (VDecimal lo) ↔ Qle_bool lo x.
Proof.
  simpl. pose proof (Qle_bool_iff lo x) as Hb. pose proof (Qge_alt x lo) as Hc.
  unfold Qge in Hc. destruct (x ?= lo)%Q, (Qle_bool lo x); simpl; intuition congruence.
Qed.

Lemma holds_lte_decimal (x hi : Q) :
  holds lte (VDecimal x) (VDecimal hi) ↔ Qle_bool x hi.
Proof.
  simpl. pose proof (Qle_bool_iff x hi) as Hb. pose proof (Qle_alt x hi) as Hc.
  destruct (x ?= hi)%Q, (Qle_bool x hi); simpl; intuition congruence.
Qed.

Section steps.
Context {row : Type} `{!Model row}.

Lemma cleaned_data_lookup data name cls v :
  data !! name = Some v → cleaned_data data name cls = clean cls v.
Proof. unfold cleaned_data. by intros ->. Qed.

Lemma filter_lookup_eval name path op v c cells v' (qs : QuerySet row) :
  EMPTY_VALUES v = false →
  resolve path = Some (c, cells) →
  prepare c op v = Some v' →
  filter_ name (Lookup path op) qs v = Some (qs ≫= joined cells op v').
Proof.
  intros Hv Hp Hc. unfold filter_, QuerySet_filter. rewrite Hv, Hp. simpl.
  by rewrite Hc.
Qed.

Lemma option_bind_Some {A B} (x : A) (f : A → option B) : Some x ≫= f = f x.
Proof. reflexivity. Qed.

End steps.

(** X1: [price_gte] and [price_lte] together keep exactly the products whose
    price lies between the two bounds, the bounds included, each as often
    and in the order the collection has it. *)
Theorem price_range_filter (C : QuerySet Product.t) (lo hi : Q) :
  qs ProductFilter {[ "price_gte" := VDecimal lo; "price_lte" := VDecimal hi ]} C
    = Some (filter (λ p, Qle_bool lo (Product.price p) && Qle_bool (Product.price p) hi) C).
Proof.
  unfold qs. cbn [filters ProductFilter].
  rewrite filter_queryset_skip by (vm_compute; reflexivity).
  rewrite filter_queryset_cons, (cleaned_data_lookup _ _ _ (VDecimal lo)) by reflexivity.
  erewrite filter_lookup_eval by reflexivity. rewrite option_bind_Some.
  rewrite filter_queryset_cons, (cleaned_data_lookup _ _ _ (VDecimal hi)) by reflexivity.
  erewrite filter_lookup_eval by reflexivity. rewrite option_bind_Some.
  rewrite !filter_queryset_skip by (vm_compute; reflexivity). cbn [filter_queryset].
  f_equal. rewrite !(bind_joined_single (λ r, VDecimal (Product.price r))).
  rewrite list_filter_filter. apply list_filter_iff. intros p.
  rewrite holds_gte_decimal, holds_lte_decimal.
  destruct (Qle_bool lo _), (Qle_bool _ hi); simpl; tauto.
Qed.

(** X2: [customer_name] works on the value stripped of the whitespace
    around it.  With a value without a null character, which the form field
    refuses, and whose stripped form is not empty, it keeps exactly the
    orders whose customer's name contains the stripped value, whatever the
    case of the letters, each as often and in the order the collection has
    it: the join to the one customer of an order repeats no order.  With a
    value that strips to the empty string it returns the collection as it
    is. *)
Theorem customer_name_filter (C : QuerySet Order.t) (v : string) :
  (¬ In "000"%char (String.list_ascii_of_string v) → strip v ≠ "" →
   qs OrderFilter {[ "customer_name" := VStr v ]} C
     = Some (filter (λ o, icontains_str (Customer.name (Order.customer o)) (strip v))
               C)) ∧
  (strip v = "" → qs OrderFilter {[ "customer_name" := VStr v ]} C = Some C).
Proof.
  split.
  - intros _ Hv. unfold qs. cbn [filters OrderFilter].
    rewrite !filter_queryset_skip by (vm_compute; reflexivity).
    rewrite filter_queryset_cons, cleaned_data_singleton. cbn [clean].
    erewrite filter_lookup_eval;
      [|simpl; by rewrite bool_decide_eq_false_2|reflexivity|reflexivity].
    rewrite option_bind_Some.
    rewrite !filter_queryset_skip by (vm_compute; reflexivity). cbn [filter_queryset].
    f_equal.
    by rewrite (bind_joined_single (λ r, VStr (Customer.name (Order.customer r)))).
  - intros Hv. unfold qs. cbn [filters OrderFilter].
    rewrite !filter_queryset_skip by (vm_compute; reflexivity).
    rewrite filter_queryset_cons, cleaned_data_singleton. cbn [clean].
    rewrite Hv, filter_empty by reflexivity. rewrite option_bind_Some.
    by rewrite !filter_queryset_skip by (vm_compute; reflexivity).
Qed.

Lemma customer_name_filter_witness :
  qs OrderFilter {[ "customer_name" := VStr " smith " ]} [order1; order2; order2]
    = Some [order2; order2] ∧
  qs OrderFilter {[ "customer_name" := VStr " " ]} [order1; order2; order2]
    = Some [order1; order2; order2].
Proof.
  split.
  - rewrite (proj1 (customer_name_filter [order1; order2; order2] " smith ")).
    + vm_compute. reflexivity.
    + simpl. intros [Hc|[Hc|[Hc|[Hc|[Hc|[Hc|[Hc|[]]]]]]]]; discriminate Hc.
    + discriminate.
  - apply (proj2 (customer_name_filter [order1; order2; order2] " ")). reflexivity.
Defined.








Section case_folding.
Context {row : Type} `{!Model row}.



End case_folding.



(** ** How requests compose *)

Section composing.
Context {row : Type} `{!Model row}.
Implicit Types f g : QuerySet row → option (QuerySet row).
Implicit Types P Q : option (row → Prop).

Lemma narrows_keeps f : narrows f ↔ ∃ P, keeps f P.
Proof.
  split.
  - intros [Hf|[P Hf]]; [by exists None|by exists (Some P)].
  - intros [[P|] Hf]; [right; by exists P|by left].
Qed.

Lemma keeps_Some : keeps (row:=row) Some (Some (λ _, True)).
Proof. intros qs. exists qs. split; [done|]. tauto. Qed.

Lemma keeps_bind f g P Q :
  keeps f P → keeps g Q → keeps (λ qs, f qs ≫= g) (both P Q).
Proof.
  destruct P as [P|]; simpl; intros Hf Hg.
  - destruct Q as [Q|]; simpl; intros qs;
      destruct (Hf qs) as (qs1 & -> & Hq1); simpl.
    + destruct (Hg qs1) as (qs2 & -> & Hq2). eexists. split; [done|].
      intros x. rewrite Hq2, Hq1. tauto.
    + apply Hg.
  - intros qs. by rewrite Hf.
Qed.

Lemma keeps_same_condition f P Q :
  keeps f P → same_condition P Q → keeps f Q.
Proof.
  destruct P as [P|], Q as [Q|]; simpl; try done.
  intros Hf HPQ qs. destruct (Hf qs) as (qs' & -> & Hq). eexists. split; [done|].
  intros x. rewrite Hq, HPQ. tauto.
Qed.

Lemma keeps_same_rows f g P qs :
  keeps f P → keeps g P → same_rows (f qs) (g qs).
Proof.
  destruct P as [P|]; simpl; intros Hf Hg.
  - destruct (Hf qs) as (qs1 & -> & Hq1), (Hg qs) as (qs2 & -> & Hq2).
    simpl. intros x. rewrite Hq1, Hq2. tauto.
  - by rewrite Hf, Hg.
Qed.

(** A request made of two requests with no name in common stands for the
    conditions of the two together. *)
Lemma keeps_filter_queryset_union fs (d1 d2 : gmap string value) :
  Forall (λ d, narrowing_binding d.2.2) fs →
  d1 ##ₘ d2 →
  ∃ P1 P2, keeps (filter_queryset fs d1) P1 ∧ keeps (filter_queryset fs d2) P2 ∧
           keeps (filter_queryset fs (d1 ∪ d2)) (both P1 P2).
Proof.
  intros Hfs Hdisj. induction Hfs as [|[name [cls b]] fs Hb _ IH].
  - exists (Some (λ _, True)), (Some (λ _, True)). repeat split; try apply keeps_Some.
    intros qs. exists qs. split; [done|]. tauto.
  - destruct IH as (R1 & R2 & HR1 & HR2 & HR).
    assert (∃ S1 S2, keeps (λ qs, filter_ name b qs (cleaned_data d1 name cls)) S1 ∧
                     keeps (λ qs, filter_ name b qs (cleaned_data d2 name cls)) S2 ∧
                     keeps (λ qs, filter_ name b qs (cleaned_data (d1 ∪ d2) name cls))
                           (both S1 S2)) as (S1 & S2 & HS1 & HS2 & HS).
    { unfold cleaned_data. destruct (d1 !! name) as [v|] eqn:E1.
      - assert (d2 !! name = None) as E2 by (by eapply map_disjoint_Some_l).
        rewrite (lookup_union_Some_l _ _ _ _ E1), E2. simpl.
        destruct (proj1 (narrows_keeps _) (narrows_filter_ name b (clean cls v) Hb))
          as [S1 HS1].
        exists S1, (Some (λ _, True)). split; [done|]. split.
        + intros qs.
          rewrite filter_empty by apply EMPTY_VALUES_clean, EMPTY_VALUES_empty_value.
          exists qs. split; [done|]. tauto.
        + eapply keeps_same_condition; [done|]. destruct S1; simpl; [|done].
          intros x. tauto.
      - rewrite lookup_union_r by done. simpl.
        destruct (proj1 (narrows_keeps _)
                    (narrows_filter_ name b
                       (clean cls (default (empty_value cls) (d2 !! name))) Hb))
          as [S2 HS2].
        exists (Some (λ _, True)), S2. split; [|split; [done|]].
        + intros qs.
          rewrite filter_empty by apply EMPTY_VALUES_clean, EMPTY_VALUES_empty_value.
          exists qs. split; [done|]. tauto.
        + eapply keeps_same_condition; [done|]. destruct S2; simpl; [|done].
          intros x. tauto. }
    exists (both S1 R1), (both S2 R2). split; [|split].
    + apply (keeps_bind (λ qs, filter_ name b qs _) _ _ _ HS1 HR1).
    + apply (keeps_bind (λ qs, filter_ name b qs _) _ _ _ HS2 HR2).
    + eapply keeps_same_condition.
      * apply (keeps_bind (λ qs, filter_ name b qs _) _ _ _ HS HR).
      * destruct S1, S2, R1, R2; simpl; try done. intros x. tauto.
Qed.

End composing.

Lemma filterset_narrowing (e : entity) :
  Forall (λ d, narrowing_binding d.2.2) (filters (filterset e)).
Proof.
  destruct e; simpl;
    repeat (apply List.Forall_cons; [simpl; try exact I|]); try apply List.Forall_nil.
  - apply narrows_filter_phone_pattern.
  - apply narrows_filter_low_stock.
  - apply narrows_filter_by_product_id.
Qed.

(** X4: for every entity, a request made of two requests that share no
    filter name gives the set of rows that applying the one and then the
    other gives: the filters of a request are conjoined. *)
Theorem request_union_is_sequence (e : entity) (d1 d2 : gmap string value)
    (C : QuerySet (row (filterset e))) :
  d1 ##ₘ d2 →
  same_rows (qs (filterset e) (d1 ∪ d2) C)
            (qs (filterset e) d1 C ≫= qs (filterset e) d2).
Proof.
  intros Hdisj. unfold qs.
  destruct (keeps_filter_queryset_union (filters (filterset e)) d1 d2)
    as (P1 & P2 & HP1 & HP2 & HP); [apply filterset_narrowing|done|].
  apply (keeps_same_rows _ (λ qs, _ qs ≫= _) (both P1 P2)); [done|].
    by apply keeps_bind.
Qed.

Lemma request_union_is_sequence_witness :
  same_rows
    (qs OrderFilter ({[ "product_name" := VStr "laptop" ]} ∪
                     {[ "product_id" := VDecimal 3 ]}) [order1; order2])
    (qs OrderFilter {[ "product_name" := VStr "laptop" ]} [order1; order2]
       ≫= qs OrderFilter {[ "product_id" := VDecimal 3 ]}).
Proof.
  apply (request_union_is_sequence order).
  apply map_disjoint_singleton_l. by rewrite lookup_singleton_ne.
Defined.

(** X5: for every entity, applying a request to its own result changes no
    row of it: filtering twice gives the set of rows filtering once gives. *)
Theorem filtering_twice_is_filtering_once (e : entity) (data : gmap string value)
    (C : QuerySet (row (filterset e))) :
  same_rows (qs (filterset e) data C ≫= qs (filterset e) data)
            (qs (filterset e) data C).
Proof.
  destruct (proj1 (narrows_keeps _) (narrows_qs e data)) as [P HP].
  apply (keeps_same_rows (λ qs, _ qs ≫= _) _ P); [|done].
  eapply keeps_same_condition; [by apply keeps_bind|].
  destruct P; simpl; [|done]. intros x. tauto.
Qed.

Lemma filter_queryset_app {row : Type} `{!Model row}
    (fs1 fs2 : list (string * (filter_class * binding row))) data (qs : QuerySet row) :
  filter_queryset (fs1 ++ fs2)%list data qs
    = filter_queryset fs1 data qs ≫= filter_queryset fs2 data.
Proof.
  revert qs. induction fs1 as [|[name [cls b]] fs1 IH]; intros qs; [done|].
  simpl. destruct (filter_ _ _ _ _); simpl; [apply IH|done].
Qed.

(** X6: [product_id] is the last filter of [OrderFilter] and ends in
    [distinct()]: with a product identifier other than 0 in the request, no
    order is returned twice, whatever the other filters of the request and
    however often the collection or a join before repeats an order. *)
Theorem product_id_makes_orders_distinct (data : gmap string value)
    (C R : QuerySet Order.t) (n : Z) :
  n ≠ 0 →
  data !! "product_id" = Some (VDecimal (inject_Z n)) →
  qs OrderFilter data C = Some R →
  NoDup R.
Proof.
  intros Hn Hd. unfold qs. cbn [filters OrderFilter].
  change [?a; ?b; ?c; ?d; ?e; ?f; ?g] with ([a; b; c; d; e; f] ++ [g])%list.
  rewrite filter_queryset_app.
  match goal with |- (?t ≫= _) = _ → _ =>
    destruct t as [C'|]; [|intros HR; discriminate HR] end.
  rewrite option_bind_Some, filter_queryset_last.
  rewrite (cleaned_data_lookup _ _ _ _ Hd). cbn [clean].
  unfold filter_, filter_by_product_id. rewrite truthy_decimal_of_Z by done.
  simpl EMPTY_VALUES. cbv iota.
  match goal with |- (_ <$> ?t) = _ → _ =>
    destruct t as [C''|]; [|intros HR; discriminate HR] end.
  intros [= <-]. apply NoDup_remove_dups.
Qed.

Lemma product_id_makes_orders_distinct_witness :
  qs OrderFilter
     {[ "product_name" := VStr "laptop"; "product_id" := VDecimal (inject_Z 3) ]}
     [order1; order2; order1] = Some [order1] ∧
  NoDup [order1].
Proof.
  split; [vm_compute; reflexivity|].
  apply (product_id_makes_orders_distinct
           {[ "product_name" := VStr "laptop"; "product_id" := VDecimal (inject_Z 3) ]}
           [order1; order2; order1] [order1] 3).
  - lia.
  - reflexivity.
  - vm_compute. reflexivity.
Defined.

(** X7: for every entity, a request in which every declared filter is
    missing or has an empty value returns the collection itself: the same
    rows, as often and in the same order. *)
Theorem request_without_values_returns_input (e : entity) (data : gmap string value)
    (C : QuerySet (row (filterset e))) :
  (∀ name v, declared (filterset e) name → data !! name = Some v →
             EMPTY_VALUES v = true) →
  qs (filterset e) data C = Some C.
Proof. intros Hd. unfold qs. by apply filter_queryset_no_values. Qed.

Lemma request_without_values_returns_input_witness :
  qs OrderFilter {[ "product_name" := VStr ""; "first" := VInt 10 ]}
     [order1; order1; order2]
  = Some [order1; order1; order2].
Proof.
  apply (request_without_values_returns_input order).
  intros name v Hname Hv.
  destruct (decide (name = "product_name")) as [->|Hne].
  - rewrite lookup_insert_eq in Hv. by inversion Hv.
  - rewrite lookup_insert_ne in Hv by done.
    destruct (decide (name = "first")) as [->|Hne'].
    + exfalso. unfold declared in Hname. simpl in Hname.
      rewrite !elem_of_cons, elem_of_nil in Hname.
      repeat destruct Hname as [Hname|Hname]; discriminate || done.
    + by rewrite lookup_singleton_ne in Hv.
Defined.

(** ** The phone patterns *)

Lemma append_nil_l (s : string) : "" +:+ s = s.
Proof. reflexivity. Qed.

Lemma append_cons (c : Ascii.ascii) (s1 s2 : string) :
  String c s1 +:+ s2 = String c (s1 +:+ s2).
Proof. reflexivity. Qed.

Lemma nullable_lang (r : regex) : nullable r = true ↔ lang r "".
Proof.
  induction r as [| | c | |r1 IH1 r2 IH2|r1 IH1 r2 IH2]; simpl.
  - split; [discriminate|tauto].
  - split; reflexivity.
  - split; discriminate.
  - split; [discriminate|]. intros (c & _ & E). discriminate E.
  - rewrite andb_true_iff, IH1, IH2. split.
    + intros [L1 L2]. by exists "", "".
    + intros (s1 & s2 & E & L1 & L2). destruct s1; [|discriminate E].
      rewrite append_nil_l in E. subst. tauto.
  - by rewrite orb_true_iff, IH1, IH2.
Qed.

Lemma deriv_lang (c : Ascii.ascii) (r : regex) (s : string) :
  lang (deriv c r) s ↔ lang r (String c s).
Proof.
  revert s. induction r as [| | c' | |r1 IH1 r2 IH2|r1 IH1 r2 IH2]; intros s; simpl.
  - tauto.
  - split; [tauto|discriminate].
  - destruct (Ascii.eqb_spec c c') as [->|Hne]; simpl.
    + split; [by intros ->|]. by intros [= ->].
    + split; [tauto|]. by intros [= ? ?].
  - destruct (is_digit c) eqn:Hd; simpl.
    + split; [intros ->; eauto|]. by intros (d & _ & [= _ ->]).
    + split; [tauto|]. intros (d & Hd' & [= -> _]). congruence.
  - assert (lang (Cat (deriv c r1) r2) s ↔
            ∃ s1 s2, s = s1 +:+ s2 ∧ lang r1 (String c s1) ∧ lang r2 s2) as Hcat.
    { simpl. split; intros (s1 & s2 & E & L1 & L2); exists s1, s2; by rewrite ?IH1 in *. }
    destruct (nullable r1) eqn:Hn.
    + change (lang (Cat (deriv c r1) r2) s ∨ lang (deriv c r2) s ↔
              ∃ s1 s2, String c s = s1 +:+ s2 ∧ lang r1 s1 ∧ lang r2 s2).
      rewrite Hcat, IH2. split.
      * intros [(s1 & s2 & -> & L1 & L2)|L2].
        -- by exists (String c s1), s2.
        -- exists "", (String c s). by rewrite <- nullable_lang.
      * intros (s1 & s2 & E & L1 & L2). destruct s1 as [|c1 s1].
        -- rewrite append_nil_l in E. right. by subst.
        -- rewrite append_cons in E. left. injection E as -> ->. eauto.
    + rewrite Hcat. split.
      * intros (s1 & s2 & -> & L1 & L2). by exists (String c s1), s2.
      * intros (s1 & s2 & E & L1 & L2). destruct s1 as [|c1 s1].
        -- apply nullable_lang in L1. congruence.
        -- rewrite append_cons in E. injection E as -> ->. eauto.
  - by rewrite IH1, IH2.
Qed.

(** The matcher decides [lang]. *)
Lemma accepts_lang (r : regex) (s : string) : accepts r s = true ↔ lang r s.
Proof.
  revert r. induction s as [|c s IH]; intros r; simpl.
  - apply nullable_lang.
  - by rewrite IH, deriv_lang.
Qed.

Lemma before_final_newline_Some (s s' : string) :
  before_final_newline s = Some s' → s = s' +:+ String "010" "".
Proof.
  revert s'. induction s as [|c s IH]; intros s'; [discriminate|].
  destruct s as [|c2 s2].
  - simpl. destruct (Ascii.eqb_spec c "010"%char) as [->|Hne]; [|discriminate].
    by intros [= <-].
  - change (before_final_newline (String c (String c2 s2)))
      with (String c <$> before_final_newline (String c2 s2)).
    destruct (before_final_newline (String c2 s2)) as [t|]; [|discriminate].
    intros [= <-]. rewrite append_cons. f_equal. by apply IH.
Qed.

Lemma length_app_string (s1 s2 : string) :
  String.length (s1 +:+ s2) = (String.length s1 + String.length s2)%nat.
Proof. induction s1 as [|c s1 IH]; simpl; [done|]. by rewrite IH. Qed.

Lemma lang_length (r : regex) (s : string) :
  lang r s → (min_length r ≤ String.length s ≤ max_length r)%nat.
Proof.
  revert s. induction r as [| | c | |r1 IH1 r2 IH2|r1 IH1 r2 IH2]; intros s; simpl.
  - tauto.
  - intros ->. simpl. lia.
  - intros ->. simpl. lia.
  - intros (c & _ & ->). simpl. lia.
  - intros (s1 & s2 & -> & L1 & L2). rewrite length_app_string.
    apply IH1 in L1. apply IH2 in L2. lia.
  - intros [L|L]; [apply IH1 in L|apply IH2 in L]; lia.
Qed.

Lemma lang_may_contain (r : regex) (s : string) (c : Ascii.ascii) :
  lang r s → In c (String.list_ascii_of_string s) → may_contain r c = true.
Proof.
  revert s. induction r as [| | c' | |r1 IH1 r2 IH2|r1 IH1 r2 IH2]; intros s; simpl.
  - tauto.
  - by intros ->.
  - intros -> [->|[]]. apply Ascii.eqb_refl.
  - by intros (d & Hd & ->) [->|[]].
  - intros (s1 & s2 & -> & L1 & L2) Hin. apply orb_true_iff.
    assert (In c (String.list_ascii_of_string s1) ∨ In c (String.list_ascii_of_string s2)) as [Hc|Hc].
    { clear -Hin. induction s1 as [|c1 s1 IH]; simpl in *; [tauto|].
      destruct Hin as [->|Hin]; [tauto|]. destruct (IH Hin); tauto. }
    + left. by apply (IH1 s1).
    + right. by apply (IH2 s2).
  - intros [L|L] Hin; apply orb_true_iff; [left; by apply (IH1 s)|right; by apply (IH2 s)].
Qed.

Lemma re_match_cases (r : regex) (s : string) :
  re_match r s = true → lang r s ∨ ∃ s', s = s' +:+ String "010" "" ∧ lang r s'.
Proof.
  unfold re_match. rewrite orb_true_iff. intros [Hs|Hs].
  - left. by apply accepts_lang.
  - right. destruct (before_final_newline s) as [s'|] eqn:E; [|discriminate].
    exists s'. split; [by apply before_final_newline_Some|by apply accepts_lang].
Qed.

Lemma in_append (c : Ascii.ascii) (s1 s2 : string) :
  In c (String.list_ascii_of_string (s1 +:+ s2)) →
  In c (String.list_ascii_of_string s1) ∨ In c (String.list_ascii_of_string s2).
Proof.
  induction s1 as [|c1 s1 IH]; [rewrite append_nil_l; tauto|].
  rewrite append_cons. simpl. intros [->|Hin]; [tauto|]. destruct (IH Hin); tauto.
Qed.

(** X8: a phone number the mutations accept has between 9 and 18
    characters, so it fits the 20 characters of the [phone] column. *)
Theorem accepted_phone_length (phone : string) :
  re_match phone_pattern phone = true →
  (9 ≤ String.length phone ≤ 18)%nat.
Proof.
  intros Hm. destruct (re_match_cases _ _ Hm) as [L|(s' & -> & L)];
    apply lang_length in L; change (min_length phone_pattern) with 9%nat in L;
    change (max_length phone_pattern) with 17%nat in L.
  - lia.
  - rewrite length_app_string. simpl. lia.
Qed.

Lemma accepted_phone_length_witness :
  re_match phone_pattern "123-456-7890" = true ∧
  (9 ≤ String.length "123-456-7890" ≤ 18)%nat.
Proof.
  split; [reflexivity|]. apply (accepted_phone_length "123-456-7890"). reflexivity.
Defined.

(** X9: a phone number the mutations accept is made of digits, [+] and
    [-], but for a newline that may end it. *)
Theorem accepted_phone_characters (phone : string) (c : Ascii.ascii) :
  re_match phone_pattern phone = true →
  In c (String.list_ascii_of_string phone) →
  is_digit c = true ∨ c = "+"%char ∨ c = "-"%char ∨ c = "010"%char.
Proof.
  intros Hm Hin.
  assert (may_contain phone_pattern c = true ∨ c = "010"%char) as Hc.
  { destruct (re_match_cases _ _ Hm) as [L|(s' & -> & L)].
    - left. by apply (lang_may_contain _ phone).
    - destruct (in_append _ _ _ Hin) as [Hin'|[<-|[]]]; [left|by right].
      by apply (lang_may_contain _ s'). }
  destruct Hc as [Hc|Hc]; [|tauto].
  simpl in Hc.
  destruct (Ascii.eqb_spec c "1"%char) as [->|_]; [by left|].
  destruct (is_digit c); [by left|].
  destruct (Ascii.eqb_spec c "+"%char) as [->|_]; [tauto|].
  destruct (Ascii.eqb_spec c "-"%char) as [->|_]; [tauto|].
  discriminate Hc.
Qed.

Lemma accepted_phone_characters_witness :
  is_digit "+" = true ∨ "+"%char = "+"%char ∨ "+"%char = "-"%char ∨ "+"%char = "010"%char.
Proof.
  apply (accepted_phone_characters "+1234567890" "+"); [reflexivity|].
  simpl. tauto.
Defined.

Lemma in_append_iff (c : Ascii.ascii) (s1 s2 : string) :
  In c (String.list_ascii_of_string (s1 +:+ s2)) ↔
  In c (String.list_ascii_of_string s1) ∨ In c (String.list_ascii_of_string s2).
Proof.
  induction s1 as [|c1 s1 IH]; [rewrite append_nil_l; simpl; tauto|].
  rewrite append_cons. simpl. rewrite IH. tauto.
Qed.

Lemma is_digits_lang (n : nat) (s : string) :
  is_digits n s = true → lang (Times n Digit) s.
Proof.
  unfold is_digits. revert s. induction n as [|n IH]; intros [|c s]; simpl.
  - done.
  - discriminate.
  - discriminate.
  - rewrite !andb_true_iff. intros (Hlen & Hc & Hs).
    exists (String c ""), s. split; [done|]. split; [eauto|].
    apply IH. by rewrite andb_true_iff.
Qed.

Lemma re_match_phone_regex_no_dash (s : string) :
  In "-"%char (String.list_ascii_of_string s) → re_match phone_regex s = false.
Proof.
  intros Hin. destruct (re_match phone_regex s) eqn:Hm; [exfalso|done].
  destruct (re_match_cases _ _ Hm) as [L|(s' & -> & L)].
  - by pose proof (lang_may_contain _ _ _ L Hin).
  - apply in_append_iff in Hin as [Hin|[[=]|[]]].
    by pose proof (lang_may_contain _ _ _ L Hin).
Qed.

(** X10: the validator of [Customer.phone] accepts only phone numbers the
    mutations accept, and refuses every number of the form ddd-ddd-dddd,
    which the mutations accept. *)
Theorem validator_stricter_than_mutations (phone a b c : string) :
  (re_match phone_regex phone = true → re_match phone_pattern phone = true) ∧
  (is_digits 3 a = true → is_digits 3 b = true → is_digits 4 c = true →
   re_match phone_pattern (a +:+ "-" +:+ b +:+ "-" +:+ c) = true ∧
   re_match phone_regex (a +:+ "-" +:+ b +:+ "-" +:+ c) = false).
Proof.
  split.
  - intros Hm. unfold re_match in *. rewrite orb_true_iff in *.
    destruct Hm as [Hm|Hm]; [left|right].
    + apply accepts_lang. left. by apply accepts_lang.
    + destruct (before_final_newline phone); [|done].
      apply accepts_lang. left. by apply accepts_lang.
  - intros Ha Hb Hc. split.
    + unfold re_match. apply orb_true_iff. left. apply accepts_lang. right.
      exists a, ("-" +:+ b +:+ "-" +:+ c). split; [done|].
      split; [by apply is_digits_lang|].
      exists "-", (b +:+ "-" +:+ c). split; [done|]. split; [done|].
      exists b, ("-" +:+ c). split; [done|]. split; [by apply is_digits_lang|].
      exists "-", c. split; [done|]. split; [done|]. by apply is_digits_lang.
    + apply re_match_phone_regex_no_dash. apply in_append_iff. right.
      rewrite append_cons. by left.
Qed.

Lemma validator_stricter_than_mutations_witness :
  re_match phone_pattern "+1234567890" = true ∧
  re_match phone_pattern "123-456-7890" = true ∧
  re_match phone_regex "123-456-7890" = false.
Proof.
  destruct (validator_stricter_than_mutations "+1234567890" "123" "456" "7890")
    as [Hincl Hdash].
  split; [by apply Hincl|]. by apply Hdash.
Defined.

(** ** The mutations of crm/schema.py *)

Lemma next_id_above (ids : list Z) (i : Z) : i ∈ ids → i < next_id ids.
Proof.
  unfold next_id. induction ids as [|j ids IH]; [by intros ?%elem_of_nil|].
  rewrite elem_of_cons. simpl. intros [->|Hin]; [lia|]. apply IH in Hin. lia.
Qed.

Lemma next_id_fresh (ids : list Z) : next_id ids ∉ ids.
Proof. intros Hin%next_id_above. lia. Qed.

Lemma Customer_create_inl `{Backend} db name email phone db' c :
  Customer_create db name email phone = inl (db', c) →
  email_exists db email = false ∧
  c = Customer.mk (next_id (Customer.id <$> customers db)) name email phone
                  (clock db) (clock db) ∧
  db' = {| customers := customers db ++ [c]; products := products db;
           orders := orders db |}.
Proof.
  unfold Customer_create. destruct (email_exists db email); [discriminate|].
  destruct (customer_refused _); [discriminate|]. by intros [= <- <-].
Qed.

Lemma Product_create_inl `{Backend} db name price stock db' p :
  Product_create db name price stock = inl (db', p) →
  p = Product.mk (next_id (Product.id <$> products db)) name price stock
                 (clock db) (clock db) ∧
  db' = {| customers := customers db;
           products := products db ++
             [Product.mk (Product.id p) name (quantize price) stock (clock db) (clock db)];
           orders := orders db |}.
Proof.
  unfold Product_create. destruct (product_refused _); [discriminate|].
  by intros [= <- <-].
Qed.

(** X11: a product [CreateProduct] returns passes [Product.clean], with the
    stock the input gave or 0 when it gave none; and whenever
    [Product.clean] would raise on the product of the input, the mutation
    reports the message of [clean] first and writes nothing. *)
Theorem CreateProduct_agrees_with_clean `{Backend} (db : Db) (input : ProductInput.t) :
  (∀ db' r p, CreateProduct_mutate db input = (db', r) →
     MutationResponse.object r = Some p →
     Product_clean p = None ∧
     Product.stock p = default 0 (ProductInput.stock input)) ∧
  (∀ id t1 t2 msg,
     Product_clean (Product.mk id (ProductInput.name input) (ProductInput.price input)
                      (default 0 (ProductInput.stock input)) t1 t2) = Some msg →
     ∃ rest, CreateProduct_mutate db input
             = (db, MutationResponse.mk None None (Some (msg :: rest)))).
Proof.
  unfold CreateProduct_mutate, Product_clean. simpl.
  destruct (Qle_bool (ProductInput.price input) 0) eqn:Hp;
    destruct (default 0 (ProductInput.stock input) <? 0) eqn:Hs; simpl; split;
    try (intros db' r p [= <- <-]; discriminate);
    try (intros id t1 t2 msg [= <-]; eauto; fail).
  intros db' r p Hm Hr.
  destruct (Product_create _ _ _ _) as [[db1 p1]|e] eqn:Hc;
    injection Hm as <- <-; simpl in Hr; [|discriminate].
  injection Hr as ->. apply Product_create_inl in Hc as [-> _]. simpl.
  by rewrite Hp, Hs.
Qed.

Lemma CreateProduct_agrees_with_clean_witness :
  Product_clean (Product.mk 7 "Mouse" (-1) 0 0 0) = Some "Price must be positive" ∧
  ∃ rest, @CreateProduct_mutate plain_backend shop (ProductInput.mk "Mouse" (-1) None)
          = (shop, MutationResponse.mk None None (Some ("Price must be positive" :: rest))).
Proof.
  split; [reflexivity|].
  apply (proj2 (@CreateProduct_agrees_with_clean plain_backend shop
                  (ProductInput.mk "Mouse" (-1) None)) 7 0 0).
  reflexivity.
Defined.

(** X12: a mutation that returns no object has written nothing: when
    [CreateCustomer], [CreateProduct] or [CreateOrder] answers with errors,
    be it for its own checks or for an exception of the database, the
    tables are as they were. *)
Theorem refused_mutation_writes_nothing `{Backend} (db : Db) :
  (∀ input, MutationResponse.object (CreateCustomer_mutate db input).2 = None →
            (CreateCustomer_mutate db input).1 = db) ∧
  (∀ input, MutationResponse.object (CreateProduct_mutate db input).2 = None →
            (CreateProduct_mutate db input).1 = db) ∧
  (∀ input, MutationResponse.object (CreateOrder_mutate db input).2 = None →
            (CreateOrder_mutate db input).1 = db).
Proof.
  split; [|split]; intros input.
  - unfold CreateCustomer_mutate.
    destruct (email_exists _ _), (phone_invalid _); simpl; try done.
    by destruct (Customer_create _ _ _ _) as [[db' c]|e].
  - unfold CreateProduct_mutate.
    destruct (Qle_bool _ _), (_ <? _); simpl; try done.
    by destruct (Product_create _ _ _ _) as [[db' c]|e].
  - unfold CreateOrder_mutate.
    destruct (Customer_get _ _); [|done].
    destruct (OrderInput.product_ids input) eqn:Hids; [done|].
    destruct (bool_decide _); [done|].
    by destruct (place_order _ _ _ _) as [[db' c]|e].
Qed.

Lemma refused_mutation_writes_nothing_witness :
  MutationResponse.object
    (@CreateOrder_mutate plain_backend shop (OrderInput.mk 1 [1; 1] (Some 5))).2 = None ∧
  (@CreateOrder_mutate plain_backend shop (OrderInput.mk 1 [1; 1] (Some 5))).1 = shop.
Proof.
  split; [reflexivity|].
  apply (proj2 (proj2 (@refused_mutation_writes_nothing plain_backend shop))).
  reflexivity.
Defined.

Lemma bulk_loop_lengths `{Backend} db nr i input cs es :
  let r := (bulk_loop db nr i input cs es).2 in
  (length (BulkCustomerMutationResponse.customers r) +
   length (BulkCustomerMutationResponse.errors r)
   = length cs + length es + length input)%nat.
Proof.
  revert db nr i cs es. induction input as [|x input IH]; intros db nr i cs es; simpl.
  - lia.
  - destruct nr; [|destruct (email_exists _ _); [|destruct (phone_invalid _);
      [|destruct (Customer_create _ _ _ _) as [[db' c]|e]]]];
      rewrite IH, ?length_app; simpl; lia.
Qed.

(** X13: [BulkCreateCustomers] accounts for every input: the customers it
    returns and the errors it returns are together as many as the inputs,
    whatever the database does with each. *)
Theorem bulk_accounts_for_every_input `{Backend} (db : Db) (input : list CustomerInput.t) :
  let r := (BulkCreateCustomers_mutate db input).2 in
  (length (BulkCustomerMutationResponse.customers r) +
   length (BulkCustomerMutationResponse.errors r) = length input)%nat.
Proof. apply (bulk_loop_lengths db false 0%nat input [] []). Qed.

(** Once the transaction is marked for rollback the loop writes nothing
    and creates nothing. *)
Lemma bulk_loop_broken `{Backend} db i input cs es :
  (bulk_loop db true i input cs es).1 = (db, true) ∧
  BulkCustomerMutationResponse.customers (bulk_loop db true i input cs es).2 = cs.
Proof.
  revert i es. induction input as [|x input IH]; intros i es; [done|]. apply IH.
Qed.

Lemma CreateCustomer_in_turn_cons `{Backend} db cs x input :
  CreateCustomer_in_turn db cs (x :: input)
  = CreateCustomer_in_turn (CreateCustomer_mutate db x).1
      (cs ++ option_list (MutationResponse.object (CreateCustomer_mutate db x).2))
      input.
Proof. reflexivity. Qed.

Lemma CreateCustomer_in_turn_prefix `{Backend} db cs input :
  cs `prefix_of` (CreateCustomer_in_turn db cs input).2.
Proof.
  revert db cs. induction input as [|x input IH]; intros db cs; [done|].
  rewrite CreateCustomer_in_turn_cons. etrans; [|apply IH]. by apply prefix_app_r.
Qed.

(** The loop against [CreateCustomer] called on each input in turn: as long
    as the database refuses no insert the two write the same rows and
    return the same customers; after a refused insert the loop has
    returned the customers the calls return up to there. *)
Lemma bulk_loop_is_CreateCustomer `{Backend} db i input cs es :
  let out := bulk_loop db false i input cs es in
  (out.1.2 = false ∧
   (out.1.1, BulkCustomerMutationResponse.customers out.2)
   = CreateCustomer_in_turn db cs input) ∨
  (out.1.2 = true ∧ (∃ c e, customer_refused c = Some e) ∧
   BulkCustomerMutationResponse.customers out.2
     `prefix_of` (CreateCustomer_in_turn db cs input).2).
Proof.
  revert db i cs es. induction input as [|x input IH]; intros db i cs es.
  { left. done. }
  rewrite CreateCustomer_in_turn_cons. cbn [bulk_loop]. unfold CreateCustomer_mutate.
  destruct (email_exists db (CustomerInput.email x)) eqn:Hemail;
    destruct (phone_invalid (CustomerInput.phone x)); cbn -[bulk_loop];
    rewrite ?app_nil_r; try apply IH.
  destruct (Customer_create _ _ _ _) as [[db' c]|e] eqn:Hc; cbn -[bulk_loop].
  - apply IH.
  - right.
    match goal with |- context [bulk_loop db true (S i) input cs ?es'] =>
      destruct (bulk_loop_broken db (S i) input cs es') as [E1 E2] end.
    rewrite E1, E2, app_nil_r. split; [done|]. split.
    + unfold Customer_create in Hc. rewrite Hemail in Hc.
      destruct (customer_refused _) as [e'|] eqn:Hr; [eauto|discriminate].
    + apply CreateCustomer_in_turn_prefix.
Qed.



(** With a database that refuses the second of three customers, the first
    is returned, the second is reported with the message of the database,
    the third with the message of the broken transaction, and no row is
    written. *)
Lemma bulk_rolls_back_example :
  let long := String.concat "" (replicate 101 "x") in
  let out := @BulkCreateCustomers_mutate strict_backend shop
               [CustomerInput.mk "Eve" "eve@example.com" None;
                CustomerInput.mk long "long@example.com" None;
                CustomerInput.mk "Finn" "finn@example.com" None] in
  out.1 = shop ∧
  Customer.name <$> BulkCustomerMutationResponse.customers out.2 = ["Eve"] ∧
  BulkCustomerMutationResponse.errors out.2
  = ["Customer 2: value too long for type character varying(100)";
     "Customer 3: " +:+ broken_transaction].
Proof. vm_compute. done. Qed.

Lemma map_fresh_key (n : Z) (f : Order.t → Order.t) (l : list Order.t) :
  n ∉ Order.id <$> l →
  (λ r, if Order.id r =? n then f r else r) <$> l = l.
Proof.
  induction l as [|r l IH]; [done|]. rewrite fmap_cons, not_elem_of_cons.
  intros [Hr Hl]. rewrite fmap_cons, IH by done.
  destruct (Z.eqb_spec (Order.id r) n); congruence.
Qed.

Lemma Order_create_inl `{Backend} db c od db1 o1 :
  Order_create db c od = inl (db1, o1) →
  ∃ d, od = Some d ∧
       o1 = Order.mk (next_id (Order.id <$> orders db)) c [] 0%Q d (clock db) (clock db) ∧
       db1 = {| customers := customers db; products := products db;
                orders := orders db ++ [stored_order o1] |}.
Proof.
  unfold Order_create. destruct od as [d|]; [|discriminate].
  unfold Order_save, Model_save. simpl.
  destruct (order_refused _) as [e|]; [discriminate|]. simpl.
  intros [= <- <-]. by exists d.
Qed.

(** Saving the order of the last row of the table, whose key no other row
    has. *)
Lemma Order_save_last `{Backend} db (l : list Order.t) row self db' o :
  orders db = (l ++ [row])%list →
  Order.id row = Order.id self →
  Order.id self ∉ Order.id <$> l →
  Order_save db false self = inl (db', o) →
  o = Order.mk (Order.id self) (Order.customer self) (Order.products self)
        (if bool_decide (Order.products self ≠ [])
         then sum_prices (Order.products self) else Order.total_amount self)
        (Order.order_date self) (Order.created_at self) (clock db) ∧
  db' = {| customers := customers db; products := products db;
           orders := l ++ [stored_order o] |}.
Proof.
  intros Hl Hrow Hfresh. unfold Order_save, Model_save.
  destruct (order_refused _) as [e|]; [discriminate|].
  cbn [Order.products]. destruct (bool_decide (Order.products self ≠ [])).
  - unfold Model_save_total_amount, calculate_total. cbn [fst].
    destruct (order_refused _) as [e|]; [discriminate|].
    intros [= <- <-]. split; [reflexivity|].
    unfold replace_order. simpl. f_equal.
    rewrite Hl, !fmap_app, !(map_fresh_key _ _ l) by done. simpl.
    by rewrite Hrow, !Z.eqb_refl.
  - intros [= <- <-]. split; [reflexivity|].
    unfold replace_order. simpl. f_equal.
    rewrite Hl, !fmap_app, !(map_fresh_key _ _ l) by done. simpl.
    by rewrite Hrow, !Z.eqb_refl.
Qed.

(** What the transaction of [CreateOrder] has done when it ends without an
    exception. *)
Lemma place_order_inl `{Backend} db c od ps db' o :
  place_order db c od ps = inl (db', o) →
  od = Some (Order.order_date o) ∧
  Order.id o = next_id (Order.id <$> orders db) ∧
  Order.customer o = c ∧
  Order.products o = ps ∧
  Order.total_amount o = sum_prices ps ∧
  db' = {| customers := customers db; products := products db;
           orders := orders db ++ [stored_order o] |}.
Proof.
  pose proof (next_id_fresh (Order.id <$> orders db)) as Hfresh.
  unfold place_order.
  destruct (Order_create db c od) as [[db1 o1]|e] eqn:Hc; [|discriminate].
  apply Order_create_inl in Hc as (d & -> & -> & ->).
  unfold products_set. cbn [Order.id orders customers products].
  rewrite fmap_app, map_fresh_key by done. simpl fmap. rewrite Z.eqb_refl.
  intros Hs. eapply Order_save_last in Hs as [-> ->]; [|reflexivity|reflexivity|done].
  simpl. destruct ps; simpl; repeat split; done.
Qed.

(** The products [filter(id__in=ids)] finds are as many as the identifiers
    exactly when no identifier is repeated and each is the key of a
    product. *)
Lemma Product_filter_id_in_length (db : Db) (ids : list Z) :
  NoDup (Product.id <$> products db) →
  length (Product_filter_id_in db ids) = length ids ↔
  NoDup ids ∧ ∀ i, i ∈ ids → i ∈ Product.id <$> products db.
Proof.
  intros Hkeys. unfold Product_filter_id_in.
  set (found := filter (λ p, Product.id p ∈ ids) (products db)).
  assert (NoDup (Product.id <$> found)) as Hfound.
  { eapply sublist_NoDup; [done|]. apply fmap_sublist, sublist_filter. }
  assert (∀ i, i ∈ Product.id <$> found ↔ i ∈ ids ∧ i ∈ Product.id <$> products db)
    as Hin.
  { intros i. unfold found. rewrite !list_elem_of_fmap.
    setoid_rewrite list_elem_of_filter. split.
    - intros (p & -> & Hp & Hdb). eauto.
    - intros (Hi & p & -> & Hp). eauto. }
  rewrite <- (length_fmap Product.id found). split.
  - intros Hlen.
    assert (Product.id <$> found ≡ₚ ids) as Hperm.
    { apply submseteq_length_Permutation; [|lia].
      apply NoDup_submseteq; [done|]. intros i Hi. by apply Hin. }
    split; [by rewrite <- Hperm|]. intros i Hi. rewrite <- Hperm in Hi. by apply Hin.
  - intros [Hids Hknown]. apply Nat.le_antisymm; apply submseteq_length, NoDup_submseteq;
      try done; intros i Hi; apply Hin in Hi || apply Hin; tauto || auto.
Qed.

(** X15: with the keys of the products unique and the customer found,
    [CreateOrder] refuses a list of product identifiers in which one is
    repeated or is the key of no product, the repeated one being that of a
    product or not: it answers "One or more products not found" and
    writes nothing. *)
Theorem CreateOrder_refuses_repeated_or_unknown `{Backend} (db : Db)
    (input : OrderInput.t) (c : Customer.t) :
  NoDup (Product.id <$> products db) →
  Customer_get db (OrderInput.customer_id input) = Some c →
  ¬ (NoDup (OrderInput.product_ids input) ∧
     ∀ i, i ∈ OrderInput.product_ids input → i ∈ Product.id <$> products db) →
  CreateOrder_mutate db input
    = (db, MutationResponse.mk None None (Some ["One or more products not found"])).
Proof.
  intros Hkeys Hc Hids. unfold CreateOrder_mutate. rewrite Hc.
  destruct (OrderInput.product_ids input) as [|i ids] eqn:E.
  - exfalso. apply Hids. split; [constructor|]. by intros i ?%elem_of_nil.
  - rewrite bool_decide_eq_true_2; [done|].
    by rewrite Product_filter_id_in_length.
Qed.

Lemma CreateOrder_refuses_repeated_or_unknown_witness :
  @CreateOrder_mutate plain_backend shop (OrderInput.mk 1 [1; 1] (Some 5))
    = (shop, MutationResponse.mk None None (Some ["One or more products not found"])).
Proof.
  apply (@CreateOrder_refuses_repeated_or_unknown plain_backend shop
           (OrderInput.mk 1 [1; 1] (Some 5)) alice).
  - vm_compute. repeat constructor; rewrite ?elem_of_cons, ?elem_of_nil; lia.
  - reflexivity.
  - simpl. intros [Hnd _]. apply NoDup_cons in Hnd as [Hnd _]. apply Hnd. by left.
Defined.

(** What [CreateOrder] has done when it returns an order. *)
Lemma CreateOrder_returns `{Backend} (db db' : Db) (input : OrderInput.t)
    (r : MutationResponse.t Order.t) (o : Order.t) :
  CreateOrder_mutate db input = (db', r) →
  MutationResponse.object r = Some o →
  Customer_get db (OrderInput.customer_id input) = Some (Order.customer o) ∧
  Order.products o = Product_filter_id_in db (OrderInput.product_ids input) ∧
  length (Order.products o) = length (OrderInput.product_ids input) ∧
  Order.total_amount o = sum_prices (Order.products o) ∧
  (Order.id o ∉ Order.id <$> orders db) ∧
  db' = {| customers := customers db; products := products db;
           orders := orders db ++ [stored_order o] |}.
Proof.
  unfold CreateOrder_mutate.
  destruct (Customer_get _ _) as [c|]; [|intros [= <- <-]; done].
  destruct (OrderInput.product_ids input) as [|i ids] eqn:E; [intros [= <- <-]; done|].
  destruct (bool_decide _) eqn:Hlen; [intros [= <- <-]; done|].
  apply bool_decide_eq_false in Hlen.
  destruct (place_order _ _ _ _) as [[db1 o1]|e] eqn:Hp; intros [= <- <-]; [|done].
  intros [= ->]. apply place_order_inl in Hp as (_ & Hid & -> & Hps & Htotal & ->).
  repeat split; try done.
  - rewrite Hps. destruct (decide (length (Product_filter_id_in db (i :: ids))
                                   = length (i :: ids))); [done|tauto].
  - by rewrite Htotal, Hps.
  - rewrite Hid. apply next_id_fresh.
Qed.

(** X16: the order [CreateOrder] returns has the customer of the given
    identifier, the products of the given identifiers, one per identifier,
    their prices summed as its total, and a key no order had; and the call
    has added the row of that order to the table of orders and written
    nothing else. *)
Theorem CreateOrder_result `{Backend} (db db' : Db) (input : OrderInput.t)
    (r : MutationResponse.t Order.t) (o : Order.t) :
  CreateOrder_mutate db input = (db', r) →
  MutationResponse.object r = Some o →
  Customer_get db (OrderInput.customer_id input) = Some (Order.customer o) ∧
  Order.products o = Product_filter_id_in db (OrderInput.product_ids input) ∧
  length (Order.products o) = length (OrderInput.product_ids input) ∧
  Order.total_amount o = sum_prices (Order.products o) ∧
  (Order.id o ∉ Order.id <$> orders db) ∧
  db' = {| customers := customers db; products := products db;
           orders := orders db ++ [stored_order o] |}.
Proof. apply CreateOrder_returns. Qed.

Lemma CreateOrder_result_witness :
  ∃ o, MutationResponse.object
         (@CreateOrder_mutate plain_backend shop (OrderInput.mk 2 [3; 1] (Some 300))).2
       = Some o ∧
       Order.products o = [laptop; stand] ∧
       Order.total_amount o = sum_prices [laptop; stand].
Proof.
  destruct (@CreateOrder_mutate plain_backend shop (OrderInput.mk 2 [3; 1] (Some 300)))
    as [db' r] eqn:Hm.
  assert (∃ o, MutationResponse.object r = Some o) as [o Ho].
  { vm_compute in Hm. injection Hm as <- <-. eauto. }
  exists o. split; [done|].
  destruct (@CreateOrder_result plain_backend shop db' _ r o Hm Ho)
    as (_ & Hps & _ & Htotal & _).
  rewrite Htotal, Hps. split; reflexivity.
Defined.

(** X17: [CreateOrder] called without [order_date] creates no order,
    whatever else the input holds: [order_date=None] is handed to
    [Order.objects.create], where it stands for NULL and not for the
    default of the field, and the column refuses NULL. *)
Theorem CreateOrder_without_date_creates_nothing `{Backend} (db : Db)
    (customer_id : Z) (product_ids : list Z) :
  let result := CreateOrder_mutate db (OrderInput.mk customer_id product_ids None) in
  MutationResponse.object result.2 = None ∧ result.1 = db.
Proof.
  simpl. unfold CreateOrder_mutate. simpl.
  destruct (Customer_get _ _); [|done].
  destruct product_ids; [done|]. by destruct (bool_decide _).
Qed.

Lemma NoDup_snoc_fresh {A : Type} (l : list A) (x : A) :
  NoDup l → x ∉ l → NoDup (l ++ [x]).
Proof.
  intros Hl Hx. apply NoDup_app. split; [done|]. split; [|apply NoDup_singleton].
  intros y Hy ->%list_elem_of_singleton. done.
Qed.

Lemma email_exists_false (db : Db) (email : string) :
  email_exists db email = false → email ∉ Customer.email <$> customers db.
Proof.
  unfold email_exists. induction (customers db) as [|c l IH]; simpl.
  - intros _ ?%elem_of_nil. done.
  - rewrite orb_false_iff, not_elem_of_cons. intros [Hc Hl]. split; [|by apply IH].
    intros ->. by rewrite String.eqb_refl in Hc.
Qed.

Lemma CreateCustomer_keeps_keys_unique `{Backend} db input :
  keys_unique db → keys_unique (CreateCustomer_mutate db input).1.
Proof.
  intros Hdb. unfold CreateCustomer_mutate.
  destruct (email_exists _ _), (phone_invalid _); simpl; try done.
  destruct (Customer_create _ _ _ _) as [[db' c]|e] eqn:Hc; simpl; [|done].
  apply Customer_create_inl in Hc as (Hemail & -> & ->).
  destruct Hdb as (Hids & Hemails & Hps & Hos).
  unfold keys_unique. simpl. rewrite !fmap_app. simpl.
  repeat split; try done; apply NoDup_snoc_fresh; try done.
  - apply next_id_fresh.
  - by apply email_exists_false.
Qed.

Lemma CreateCustomer_in_turn_keys_unique `{Backend} db cs input :
  keys_unique db → keys_unique (CreateCustomer_in_turn db cs input).1.
Proof.
  revert db cs. induction input as [|x input IH]; intros db cs Hdb; [done|].
  rewrite CreateCustomer_in_turn_cons. apply IH.
  by apply CreateCustomer_keeps_keys_unique.
Qed.

Lemma CreateOrder_refused_unchanged `{Backend} db input :
  MutationResponse.object (CreateOrder_mutate db input).2 = None →
  (CreateOrder_mutate db input).1 = db.
Proof.
  unfold CreateOrder_mutate.
  destruct (Customer_get _ _); [|done].
  destruct (OrderInput.product_ids input) eqn:Hids; [done|].
  destruct (bool_decide _); [done|].
  by destruct (place_order _ _ _ _) as [[db' c]|e].
Qed.

(** X18: every mutation keeps the keys of the three tables and the emails
    of the customers without repetition: a new row gets a key no row of
    its table has, and a customer is written only with an email no customer
    has, also when the inputs of one [BulkCreateCustomers] repeat an
    email. *)
Theorem mutations_keep_keys_unique `{Backend} (db : Db) :
  keys_unique db →
  (∀ input, keys_unique (CreateCustomer_mutate db input).1) ∧
  (∀ input, keys_unique (BulkCreateCustomers_mutate db input).1) ∧
  (∀ input, keys_unique (CreateProduct_mutate db input).1) ∧
  (∀ input, keys_unique (CreateOrder_mutate db input).1).
Proof.
  intros Hdb. split; [|split; [|split]]; intros input.
  - by apply CreateCustomer_keeps_keys_unique.
  - unfold BulkCreateCustomers_mutate, atomic. cbn [fst snd].
    destruct (bulk_loop_is_CreateCustomer db 0%nat input [] [])
      as [[Hflag Heq]|(Hflag & _)]; rewrite Hflag; [|done].
    apply (f_equal fst) in Heq. cbn [fst] in Heq. rewrite Heq.
    by apply CreateCustomer_in_turn_keys_unique.
  - unfold CreateProduct_mutate.
    destruct (Qle_bool _ _), (_ <? _); simpl; try done.
    destruct (Product_create _ _ _ _) as [[db' p]|e] eqn:Hp; simpl; [|done].
    apply Product_create_inl in Hp as (-> & ->).
    destruct Hdb as (Hids & Hemails & Hps & Hos).
    unfold keys_unique. simpl. rewrite !fmap_app. simpl.
    repeat split; try done. apply NoDup_snoc_fresh; [done|apply next_id_fresh].
  - destruct (CreateOrder_mutate db input) as [db' r] eqn:Hm.
    destruct (MutationResponse.object r) as [o|] eqn:Ho.
    + destruct (CreateOrder_returns _ _ _ _ _ Hm Ho) as (_ & _ & _ & _ & Hid & ->).
      destruct Hdb as (Hids & Hemails & Hps & Hos).
      unfold keys_unique. simpl. rewrite !fmap_app. simpl.
      repeat split; try done. by apply NoDup_snoc_fresh.
    + pose proof (CreateOrder_refused_unchanged db input) as Hsame.
      rewrite Hm in Hsame. simpl in *. by rewrite Hsame.
Qed.

Lemma mutations_keep_keys_unique_witness :
  keys_unique shop ∧
  keys_unique
    (@BulkCreateCustomers_mutate plain_backend shop
       [CustomerInput.mk "Eve" "eve@example.com" None;
        CustomerInput.mk "Eva" "eve@example.com" None]).1.
Proof.
  assert (keys_unique shop) as Hshop.
  { repeat split; apply (bool_decide_unpack _); vm_compute; exact I. }
  split; [done|].
  by apply (@mutations_keep_keys_unique plain_backend shop Hshop).
Defined.

Lemma sum_prices_from (a : Q) (ps : list Product.t) :
  (foldl (λ total p, total + Product.price p) a ps == a + sum_prices ps)%Q.
Proof.
  unfold sum_prices. revert a. induction ps as [|p ps IH]; intros a; simpl.
  - ring.
  - rewrite (IH (a + Product.price p)%Q), (IH (0 + Product.price p)%Q). ring.
Qed.

Lemma sum_prices_cons (p : Product.t) (ps : list Product.t) :
  (sum_prices (p :: ps) == Product.price p + sum_prices ps)%Q.
Proof.
  unfold sum_prices at 1. simpl. rewrite sum_prices_from. ring.
Qed.

Lemma sum_prices_Permutation (ps qs : list Product.t) :
  ps ≡ₚ qs → (sum_prices ps == sum_prices qs)%Q.
Proof.
  induction 1 as [|p ps qs _ IH|p q ps|ps qs rs _ IH1 _ IH2].
  - reflexivity.
  - by rewrite !sum_prices_cons, IH.
  - rewrite !sum_prices_cons. ring.
  - by rewrite IH1.
Qed.

(** X19: the total [Order.calculate_total] returns is the one it stores in
    the order, and it does not depend on the order in which the products
    of the order are read. *)
Theorem calculate_total_ignores_order (o1 o2 : Order.t) :
  Order.products o1 ≡ₚ Order.products o2 →
  ((calculate_total o1).2 == (calculate_total o2).2)%Q ∧
  Order.total_amount (calculate_total o1).1 = (calculate_total o1).2.
Proof. intros Hperm. split; [by apply sum_prices_Permutation|done]. Qed.

Lemma calculate_total_ignores_order_witness :
  ((calculate_total order1).2
   == (calculate_total (Order.mk 1 alice [stand; laptop] 0 100 100 100)).2)%Q ∧
  Order.total_amount (calculate_total order1).1 = (calculate_total order1).2.
Proof.
  apply (calculate_total_ignores_order order1
           (Order.mk 1 alice [stand; laptop] 0 100 100 100)).
  simpl. apply Permutation_swap.
Defined.

Lemma find_snoc_fresh {A : Type} (key : A → Z) (l : list A) (x : A) :
  key x ∉ key <$> l →
  find (λ r, key r =? key x) (l ++ [x]) = Some x.
Proof.
  induction l as [|r l IH]; simpl.
  - intros _. by rewrite Z.eqb_refl.
  - rewrite not_elem_of_cons. intros [Hr Hl].
    destruct (Z.eqb_spec (key r) (key x)); [congruence|]. by apply IH.
Qed.

(** X20: a row a mutation has just created is found by its key:
    [resolve_customer] returns the customer [CreateCustomer] returned,
    [resolve_product] the product [CreateProduct] returned, its price as
    the column keeps it, and [resolve_order] the order [CreateOrder]
    returned, its total as the column keeps it. *)
Theorem created_rows_are_found `{Backend} (db db' : Db) :
  (∀ input r c, CreateCustomer_mutate db input = (db', r) →
     MutationResponse.object r = Some c →
     resolve_customer db' (Customer.id c) = Some c) ∧
  (∀ input r p, CreateProduct_mutate db input = (db', r) →
     MutationResponse.object r = Some p →
     resolve_product db' (Product.id p)
     = Some (Product.mk (Product.id p) (Product.name p) (quantize (Product.price p))
               (Product.stock p) (Product.created_at p) (Product.updated_at p))) ∧
  (∀ input r o, CreateOrder_mutate db input = (db', r) →
     MutationResponse.object r = Some o →
     resolve_order db' (Order.id o) = Some (stored_order o)).
Proof.
  split; [|split]; intros input r x Hm Hr.
  - unfold CreateCustomer_mutate in Hm.
    destruct (email_exists _ _), (phone_invalid _); simpl in Hm;
      try (injection Hm as <- <-; discriminate).
    destruct (Customer_create _ _ _ _) as [[db1 c1]|e] eqn:Hc;
      injection Hm as <- <-; [|discriminate].
    injection Hr as ->. apply Customer_create_inl in Hc as (_ & Hx & ->).
    unfold resolve_customer, Customer_get. simpl.
    apply (find_snoc_fresh Customer.id). rewrite Hx. apply next_id_fresh.
  - unfold CreateProduct_mutate in Hm.
    destruct (Qle_bool _ _), (_ <? _); simpl in Hm;
      try (injection Hm as <- <-; discriminate).
    destruct (Product_create _ _ _ _) as [[db1 p1]|e] eqn:Hp;
      injection Hm as <- <-; [|discriminate].
    injection Hr as ->. apply Product_create_inl in Hp as (Hx & ->).
    unfold resolve_product. simpl. rewrite Hx. simpl.
    apply (find_snoc_fresh Product.id _ (Product.mk _ _ _ _ _ _)). simpl.
    apply next_id_fresh.
  - destruct (CreateOrder_returns _ _ _ _ _ Hm Hr) as (_ & _ & _ & _ & Hid & ->).
    unfold resolve_order. simpl.
    by apply (find_snoc_fresh Order.id _ (stored_order x)).
Qed.

Lemma created_rows_are_found_witness :
  ∃ c, MutationResponse.object
         (@CreateCustomer_mutate plain_backend shop
            (CustomerInput.mk "Eve" "eve@example.com" (Some "+1555987654"))).2 = Some c ∧
       @resolve_customer
         (@CreateCustomer_mutate plain_backend shop
            (CustomerInput.mk "Eve" "eve@example.com" (Some "+1555987654"))).1
         (Customer.id c) = Some c.
Proof.
  destruct (@CreateCustomer_mutate plain_backend shop
              (CustomerInput.mk "Eve" "eve@example.com" (Some "+1555987654")))
    as [db' r] eqn:Hm.
  assert (∃ c, MutationResponse.object r = Some c) as [c Hc].
  { vm_compute in Hm. injection Hm as <- <-. eauto. }
  exists c. split; [done|].
  exact (proj1 (@created_rows_are_found plain_backend shop db') _ r c Hm Hc).
Defined.
